(** * Wordlist Merger: a shallow embedding of [Wordlist Merger.cpp]

    The development follows the source file top-down:
    - [wildcardMatch]     (lines 13-39),
    - [expandFilePaths]   (lines 42-84),
    - [weaveMergeDedup]   (lines 87-151),
    - [main]              (lines 153-223).

    [std::string] is modelled by [string]; [size_t] indices by [nat] (every
    index below is bounded by the length of a string, so no wrap-around can
    occur); [string::npos] by [None]; the hash values of [std::hash<string>]
    by [Z]; the [unordered_set<size_t>] by a [gset Z]. *)

From Stdlib Require Import String Ascii ZArith Lia DecimalString.
From stdpp Require Import base gmap sets list strings.

Local Open Scope string_scope.
Local Open Scope nat_scope.

#[local] Set Warnings "-clear-no-such-hyp".

(* ===================================================================== *)
(** * Part I: the program                                                 *)
(* ===================================================================== *)

(** ** Strings *)

(** [s.substr(n)]: the suffix of [s] that starts at index [n]. Only used in
    statements and proofs, to speak about "the rest of the pattern". *)
Fixpoint sdrop (n : nat) (s : string) : string :=
  match n, s with
  | O, _ => s
  | S n', String _ s' => sdrop n' s'
  | S _, EmptyString => EmptyString
  end.

(** ** wildcardMatch (source lines 13-39) *)

(** The four local variables of [wildcardMatch]. *)
Record wm_state := WmState {
  tIdx : nat;
  pIdx : nat;
  starIdx : option nat;   (* [None] is [string::npos] *)
  matchIdx : nat
}.

Inductive wm_result :=
| WmContinue (s : wm_state)    (* the loop body fell through *)
| WmReturnFalse.               (* [return false] at line 30 *)

(** [pIdx < pattern.length() && (pattern[pIdx] == '?' || pattern[pIdx] == text[tIdx])] *)
Definition wm_char_matches (text pattern : string) (s : wm_state) : bool :=
  match String.get (pIdx s) pattern with
  | Some pc =>
      Ascii.eqb pc "?"%char ||
      match String.get (tIdx s) text with
      | Some tc => Ascii.eqb pc tc
      | None => false
      end
  | None => false
  end.

(** [pIdx < pattern.length() && pattern[pIdx] == '*'] *)
Definition wm_at_star (pattern : string) (p : nat) : bool :=
  match String.get p pattern with
  | Some pc => Ascii.eqb pc "*"%char
  | None => false
  end.

(** One execution of the body of the first [while] loop (lines 18-31). *)
Definition wm_body (text pattern : string) (s : wm_state) : wm_result :=
  if wm_char_matches text pattern s then
    WmContinue (WmState (S (tIdx s)) (S (pIdx s)) (starIdx s) (matchIdx s))
  else if wm_at_star pattern (pIdx s) then
    WmContinue (WmState (tIdx s) (S (pIdx s)) (Some (pIdx s)) (tIdx s))
  else
    match starIdx s with
    | Some st =>
        WmContinue (WmState (S (matchIdx s)) (S st) (Some st) (S (matchIdx s)))
    | None => WmReturnFalse
    end.

Inductive wm_loop_result :=
| WmExit (s : wm_state)     (* the loop condition became false *)
| WmFalse                   (* [return false] inside the loop *)
| WmOutOfFuel.

(** [while (tIdx < text.length()) { ... }] (lines 17-32). *)
Fixpoint wm_loop (fuel : nat) (text pattern : string) (s : wm_state)
  : wm_loop_result :=
  if (tIdx s <? String.length text)%nat then
    match fuel with
    | O => WmOutOfFuel
    | S fuel' =>
        match wm_body text pattern s with
        | WmContinue s' => wm_loop fuel' text pattern s'
        | WmReturnFalse => WmFalse
        end
    end
  else WmExit s.

(** [while (pIdx < pattern.length() && pattern[pIdx] == '*') pIdx++;]
    (lines 34-36); [n] bounds the number of iterations. *)
Fixpoint wm_skip_stars (n : nat) (pattern : string) (p : nat) : nat :=
  match n with
  | O => p
  | S n' => if wm_at_star pattern p then wm_skip_stars n' pattern (S p) else p
  end.

(** A number of iterations the first loop never exceeds (see
    [wm_loop_terminates]). *)
Definition wm_fuel (text pattern : string) : nat :=
  (String.length pattern + 2) * (S (String.length text) * S (String.length text)).

Definition wm_init : wm_state := WmState 0 0 None 0.

Definition wildcardMatch (text pattern : string) : bool :=
  match wm_loop (wm_fuel text pattern) text pattern wm_init with
  | WmExit s =>
      (wm_skip_stars (String.length pattern) pattern (pIdx s)
         =? String.length pattern)%nat
  | WmFalse => false
  | WmOutOfFuel => false
  end.

(** The meaning of a glob pattern, independent of the algorithm: [*] stands
    for any run of characters, [?] for exactly one character, every other
    character for itself; the whole pattern against the whole candidate. *)
Inductive glob_matches : string -> string -> Prop :=
| gm_empty : glob_matches "" ""
| gm_any p t c :
    glob_matches p t -> glob_matches (String "?" p) (String c t)
| gm_char p t c :
    c <> "*"%char -> c <> "?"%char ->
    glob_matches p t -> glob_matches (String c p) (String c t)
| gm_star_none p t :
    glob_matches p t -> glob_matches (String "*" p) t
| gm_star_more p t c :
    glob_matches (String "*" p) t -> glob_matches (String "*" p) (String c t).

(** [s] consists of [*] characters only. *)
Fixpoint all_stars (s : string) : bool :=
  match s with
  | EmptyString => true
  | String c s' => Ascii.eqb c "*"%char && all_stars s'
  end.

(** ** Text output *)

Definition nl : string := String "010" "".   (* '\n' *)
Definition cr : string := String "013" "".   (* '\r' *)

(** [ostream << n] for an unsigned integer. *)
Definition show_nat (n : nat) : string := NilZero.string_of_uint (Nat.to_uint n).

(** [s.find(c)]; [None] is [string::npos]. *)
Fixpoint find (c : ascii) (s : string) : option nat :=
  match s with
  | EmptyString => None
  | String d s' => if Ascii.eqb d c then Some O else option_map S (find c s')
  end.

(** ** The file system, as seen through [std::filesystem] and [fstream] *)

Inductive file_type := ft_not_found | ft_regular | ft_directory | ft_other.

(** The throwing overloads of [std::filesystem] either return or throw a
    [filesystem_error] carrying [what()]. *)
Inductive fs_result (A : Type) :=
| FsOk (a : A)
| FsError (what : string).
Arguments FsOk {A} a.
Arguments FsError {A} what.

Record dir_entry := DirEntry {
  entry_path : string;          (* [entry.path().string()] *)
  entry_is_regular : bool       (* [entry.is_regular_file()] *)
}.

Record filesystem := Filesystem {
  (* [fs::status(p)], behind [fs::exists], [fs::is_regular_file] and
     [fs::is_directory] *)
  fs_status : string -> fs_result file_type;
  (* [fs::path(p).parent_path()] and [fs::path(p).filename().string()] *)
  fs_parent_path : string -> string;
  fs_filename : string -> string;
  (* [fs::directory_iterator(dir)]: the entries it yields and, when the
     iteration throws, the error that ends it *)
  fs_directory_iterator : string -> list dir_entry * option string;
  (* [ifstream(path, ios::binary)]: the bytes of the file when it opens *)
  fs_open_read : string -> option string;
  (* [ofstream(path, ios::binary).is_open()] *)
  fs_open_write : string -> bool
}.

Definition fs_exists (t : file_type) : bool :=
  match t with ft_not_found => false | _ => true end.
Definition fs_is_regular_file (t : file_type) : bool :=
  match t with ft_regular => true | _ => false end.
Definition fs_is_directory (t : file_type) : bool :=
  match t with ft_directory => true | _ => false end.

(** A call returns or lets an exception escape. *)
Inductive outcome (A : Type) :=
| Returned (a : A)
| Thrown (what : string).
Arguments Returned {A} a.
Arguments Thrown {A} what.

(** ** expandFilePaths (source lines 42-84) *)

(** [pattern.find('*') != npos || pattern.find('?') != npos] (line 47). *)
Definition has_wildcard (pattern : string) : bool :=
  match find "*" pattern, find "?" pattern with
  | None, None => false
  | _, _ => true
  end.

(** The [for] loop over the directory entries (lines 59-66). *)
Fixpoint expand_entries (fs : filesystem) (filename : string)
    (entries : list dir_entry) (result : list string) : list string :=
  match entries with
  | [] => result
  | entry :: entries' =>
      if entry_is_regular entry then
        let entryName := fs_filename fs (entry_path entry) in
        if wildcardMatch entryName filename then
          expand_entries fs filename entries' (result ++ [entry_path entry])%list
        else expand_entries fs filename entries' result
      else expand_entries fs filename entries' result
  end.

Definition warn_pattern_error (pattern what : string) : string :=
  "Warning: Error processing pattern '" ++ pattern ++ "': " ++ what ++ nl.

(** The wildcard branch (lines 48-72); the [try] block catches every
    [filesystem_error], keeping what was pushed before it. *)
Definition expand_wildcard (fs : filesystem) (pattern : string)
    (result : list string) (cerr : string) : list string * string :=
  let parentPath := fs_parent_path fs pattern in
  let filename := fs_filename fs pattern in
  let parentPath := if String.eqb parentPath "" then "." else parentPath in
  match fs_status fs parentPath with
  | FsError what => (result, cerr ++ warn_pattern_error pattern what)
  | FsOk t =>
      if fs_exists t && fs_is_directory t then
        let '(entries, err) := fs_directory_iterator fs parentPath in
        let result' := expand_entries fs filename entries result in
        match err with
        | None => (result', cerr)
        | Some what => (result', cerr ++ warn_pattern_error pattern what)
        end
      else
        (result, cerr ++ "Warning: Directory not found for pattern: " ++ pattern ++ nl)
  end.

(** The literal branch (lines 74-79); it is outside the [try] block. *)
Definition expand_literal (fs : filesystem) (pattern : string)
    (result : list string) (cerr : string) : outcome (list string) * string :=
  match fs_status fs pattern with
  | FsError what => (Thrown what, cerr)
  | FsOk t =>
      if fs_exists t && fs_is_regular_file t then
        (Returned (result ++ [pattern])%list, cerr)
      else
        (Returned result,
         cerr ++ "Warning: File not found or not a regular file: " ++ pattern ++ nl)
  end.

(** The loop over the patterns (lines 45-81), with [result] and the text
    sent to [cerr] so far. *)
Fixpoint expand_loop (fs : filesystem) (patterns : list string)
    (result : list string) (cerr : string) : outcome (list string) * string :=
  match patterns with
  | [] => (Returned result, cerr)
  | pattern :: patterns' =>
      if has_wildcard pattern then
        let '(result', cerr') := expand_wildcard fs pattern result cerr in
        expand_loop fs patterns' result' cerr'
      else
        match expand_literal fs pattern result cerr with
        | (Returned result', cerr') => expand_loop fs patterns' result' cerr'
        | (Thrown what, cerr') => (Thrown what, cerr')
        end
  end.

Definition expandFilePaths (fs : filesystem) (patterns : list string)
    (cerr : string) : outcome (list string) * string :=
  expand_loop fs patterns [] cerr.

(** ** Input streams *)

(** An [ifstream] that was opened: the bytes not yet read and the state
    flags ([badbit] never gets set: reading from the buffer cannot fail
    otherwise than by reaching the end). *)
Record ifstream := Ifstream {
  buf : string;
  eofbit : bool;
  failbit : bool
}.

Definition good (f : ifstream) : bool := negb (eofbit f) && negb (failbit f).

(** [ifstream(path, ios::binary)] on a file that opens. *)
Definition open_stream (content : string) : ifstream := Ifstream content false false.

(** The characters up to the next ['\n'] and, when there is one, what
    follows it; [None] when the end of the data comes first. *)
Fixpoint read_line (s : string) : string * option string :=
  match s with
  | EmptyString => (EmptyString, None)
  | String c s' =>
      if Ascii.eqb c "010" then (EmptyString, Some s')
      else let '(l, rest) := read_line s' in (String c l, rest)
  end.

(** [getline(f, line)]: the stream afterwards and the new value of [line].
    On a stream that is not good the sentry sets [failbit] and [line] is
    left alone. Otherwise [line] is erased and filled up to the delimiter,
    which is extracted and dropped; reaching the end sets [eofbit], and
    extracting nothing at all sets [failbit] too. *)
Definition getline (f : ifstream) (line : string) : ifstream * string :=
  if good f then
    match read_line (buf f) with
    | (l, Some rest) => (Ifstream rest false false, l)
    | (l, None) => (Ifstream "" true (String.eqb l ""), l)
    end
  else (Ifstream (buf f) (eofbit f) true, line).

(** ** weaveMergeDedup (source lines 87-151) *)

Section WeaveMerge.

(** [hash<string> hasher] (line 90): the standard library's, a parameter
    of the development. *)
Variable hasher : string -> Z.

(** What the loops of lines 122-147 read and write besides the streams. *)
Record merge_state := MergeState {
  written : gset Z;
  out : string;          (* the bytes sent to [out] so far *)
  anyAlive : bool
}.

(** The body of the [for] loop (lines 127-140) for one stream. [line] is
    empty whenever [getline] is called (reserved at 117-118, cleared at 139
    after a read that succeeds, erased by [getline] itself otherwise). *)
Definition visit (f : ifstream) (st : merge_state) : ifstream * merge_state :=
  if negb (good f) then (f, st)
  else
    let '(f', line) := getline f "" in
    if negb (failbit f') then
      let hash := hasher line in
      if bool_decide (hash ∈ written st) then
        (f', MergeState (written st) (out st) true)
      else
        (f', MergeState ({[hash]} ∪ written st) (out st ++ line ++ nl) true)
    else (f', st).

(** [for (ifstream& f : files) ...] (lines 126-141): one round. *)
Fixpoint round (files : list ifstream) (st : merge_state)
  : list ifstream * merge_state :=
  match files with
  | [] => ([], st)
  | f :: files' =>
      let '(f', st') := visit f st in
      let '(files'', st'') := round files' st' in
      (f' :: files'', st'')
  end.

Definition progress_message (w : gset Z) : string :=
  "Progress: " ++ show_nat (size w) ++ " unique lines written..." ++ cr.

(** The state of [while (anyAlive)] between two rounds. *)
Record weave_state := WeaveState {
  ws_files : list ifstream;
  ws_written : gset Z;
  ws_out : string;
  ws_iterations : Z;      (* [size_t], modulo 2^64 *)
  ws_cerr : string
}.

(** One execution of the body of [while (anyAlive)] (lines 123-146) and the
    value of [anyAlive] it ends with. *)
Definition weave_body (w : weave_state) : weave_state * bool :=
  let iterations := ((ws_iterations w + 1) mod 2 ^ 64)%Z in
  let '(files, st) := round (ws_files w) (MergeState (ws_written w) (ws_out w) false) in
  let cerr :=
    if (iterations mod 10000 =? 0)%Z
    then ws_cerr w ++ progress_message (written st)
    else ws_cerr w in
  (WeaveState files (written st) (out st) iterations cerr, anyAlive st).

(** [while (anyAlive) { ... }]; the loop is entered with [anyAlive = true]. *)
Fixpoint weave_loop (fuel : nat) (w : weave_state) : option weave_state :=
  match fuel with
  | O => None
  | S fuel' =>
      let '(w', alive) := weave_body w in
      if alive then weave_loop fuel' w' else Some w'
  end.

(** The loop that opens the files (lines 95-107). Whether a path opens is
    asked of [fs] for that path alone: a limit on the number of streams
    that are open at a time is not part of the model. *)
Fixpoint open_files (fs : filesystem) (filePaths : list string)
    (files : list ifstream) (cerr : string) : list ifstream * string :=
  match filePaths with
  | [] => (files, cerr)
  | path :: filePaths' =>
      match fs_open_read fs path with
      | Some content =>
          open_files fs filePaths' (files ++ [open_stream content])%list cerr
      | None =>
          open_files fs filePaths' files
            (cerr ++ "Warning: Could not open file: " ++ path ++ nl)
      end
  end.

(** The bytes the streams have not read yet. *)
Fixpoint unread (files : list ifstream) : nat :=
  match files with
  | [] => O
  | f :: files' => String.length (buf f) + unread files'
  end.

(** Rounds after which every stream has been read to its end: each round
    but the last takes at least one byte from some stream. *)
Definition weave_fuel (files : list ifstream) : nat := S (unread files).

Definition sizeof_size_t : nat := 8.

Definition summary_message (w : gset Z) : string :=
  nl ++ "Merge complete: " ++ show_nat (size w) ++ " unique lines written" ++ nl ++
  "Memory usage: ~" ++ show_nat (size w * sizeof_size_t / 1024 / 1024) ++ " MB" ++ nl.

(** [weaveMergeDedup(filePaths, out)]: the bytes in [out] and the text on
    [cerr] when it returns; [None] only if the loop ran out of fuel, which
    [weaveMergeDedup_returns] excludes. The files are read as [fs] has
    them: the file behind [out] is taken to be none of them. *)
Definition weaveMergeDedup (fs : filesystem) (filePaths : list string)
    (out0 cerr0 : string) : option (string * string) :=
  let '(files, cerr) := open_files fs filePaths [] cerr0 in
  match files with
  | [] => Some (out0, cerr ++ "Error: No files could be opened for weave-merge" ++ nl)
  | _ :: _ =>
      let cerr := cerr ++ "Weave-merging " ++ show_nat (length files) ++ " files..." ++ nl in
      match weave_loop (weave_fuel files) (WeaveState files ∅ out0 0 cerr) with
      | Some w => Some (ws_out w, ws_cerr w ++ summary_message (ws_written w))
      | None => None
      end
  end.

(** ** main (source lines 153-223) *)

Definition usage_message (argv0 : string) : string :=
  "Usage: " ++ argv0 ++ " [-o <output>] <file1> <file2> ... <fileN>" ++ nl ++
  "  -o, --output <file>  Output file (default: merged.txt)" ++ nl ++
  "  Supports wildcards: *.txt, file?.txt, etc." ++ nl.

(** The argument loop (lines 169-182) over [argv[i..]]; [None] is the
    [return 1] of line 177. *)
Fixpoint parse_args (args : list string) (outputFile : string)
    (filePatterns : list string) : option (string * list string) :=
  match args with
  | [] => Some (outputFile, filePatterns)
  | arg :: rest =>
      if String.eqb arg "-o" || String.eqb arg "--output" then
        match rest with
        | value :: rest' => parse_args rest' value filePatterns
        | [] => None
        end
      else parse_args rest outputFile (filePatterns ++ [arg])%list
  end.

Inductive exit_status :=
| Exited (code : Z)            (* [return code] from [main] *)
| Terminated (what : string)   (* an exception left [main] *)
| Diverged.                    (* excluded by [main_terminates] *)

(** What a run leaves behind: how it ended, the text on [cerr] and, when
    the output file was opened, its path and bytes. *)
Record run_result := RunResult {
  run_exit : exit_status;
  run_cerr : string;
  run_output : option (string * string)
}.

Definition many_files_warning (n : nat) : string :=
  "Warning: Opening " ++ show_nat n ++ " files simultaneously." ++ nl ++
  "         If you encounter errors, your OS may have file descriptor limits." ++ nl.

(** [main(argc, argv)]. The output file is opened (line 209) before the
    inputs are read (line 218); the inputs are read as [fs] has them
    before the run, so for a run that reads its own output file the bytes
    given here are not those of the program. *)
Definition main (fs : filesystem) (argv : list string) : run_result :=
  if (length argv <? 2)%nat then
    RunResult (Exited 1) (usage_message (hd "" argv)) None
  else
    match parse_args (tl argv) "merged.txt" [] with
    | None => RunResult (Exited 1) ("Error: -o/--output requires a filename" ++ nl) None
    | Some (outputFile, filePatterns) =>
        match filePatterns with
        | [] => RunResult (Exited 1) ("Error: No input files specified" ++ nl) None
        | _ :: _ =>
            let cerr := "Expanding file patterns..." ++ nl in
            match expandFilePaths fs filePatterns cerr with
            | (Thrown what, cerr) => RunResult (Terminated what) cerr None
            | (Returned filePaths, cerr) =>
                match filePaths with
                | [] => RunResult (Exited 1) (cerr ++ "Error: No valid input files found" ++ nl) None
                | _ :: _ =>
                    let cerr := cerr ++ "Processing " ++ show_nat (length filePaths) ++ " files..." ++ nl in
                    let cerr :=
                      if (100 <? length filePaths)%nat
                      then cerr ++ many_files_warning (length filePaths)
                      else cerr in
                    let cerr := cerr ++ "Output file: " ++ outputFile ++ nl in
                    if negb (fs_open_write fs outputFile) then
                      RunResult (Exited 1)
                        (cerr ++ "Error: Could not open output file: " ++ outputFile ++ nl) None
                    else
                      match weaveMergeDedup fs filePaths "" cerr with
                      | Some (out, cerr) =>
                          RunResult (Exited 0)
                            (cerr ++ "Output written to: " ++ outputFile ++ nl)
                            (Some (outputFile, out))
                      | None => RunResult Diverged cerr None
                      end
                end
            end
        end
    end.

End WeaveMerge.

(** ** The vocabulary of the specification *)

(** The lines of a file as a reader sees them: the text between newlines,
    and the text after the last newline when there is any. *)
Fixpoint lines_of (s : string) : list string :=
  match s with
  | EmptyString => []
  | String c s' =>
      if Ascii.eqb c "010" then EmptyString :: lines_of s'
      else
        match lines_of s' with
        | [] => [String c EmptyString]
        | l :: ls => String c l :: ls
        end
  end.

(** Every line followed by a newline. *)
Fixpoint unlines (ls : list string) : string :=
  match ls with
  | [] => EmptyString
  | l :: ls' => l ++ nl ++ unlines ls'
  end.

(** The first line of every input that still has one, in input order, and
    what remains of the inputs. *)
Fixpoint heads (lss : list (list string)) : list string :=
  match lss with
  | [] => []
  | [] :: lss' => heads lss'
  | (l :: _) :: lss' => l :: heads lss'
  end.

Definition tails (lss : list (list string)) : list (list string) := map (@tl string) lss.

(** Round-robin interleaving: round after round, one line of each input. *)
Fixpoint weave_rounds (n : nat) (lss : list (list string)) : list string :=
  match n with
  | O => []
  | S n' => (heads lss ++ weave_rounds n' (tails lss))%list
  end.

Definition weave (lss : list (list string)) : list string :=
  weave_rounds (max_list (length <$> lss)) lss.

(** Keep a line when its hash is not in [seen] yet. *)
Fixpoint dedup_hash (hasher : string -> Z) (seen : gset Z) (ls : list string)
  : list string :=
  match ls with
  | [] => []
  | l :: ls' =>
      if bool_decide (hasher l ∈ seen) then dedup_hash hasher seen ls'
      else l :: dedup_hash hasher ({[hasher l]} ∪ seen) ls'
  end.

(** Keep the first occurrence of every line. *)
Fixpoint first_occurrences (ls : list string) : list string :=
  match ls with
  | [] => []
  | l :: ls' => l :: filter (λ x, x ≠ l) (first_occurrences ls')
  end.

(** The contents of the files of [filePaths] that open, in order. *)
Definition opened (fs : filesystem) (filePaths : list string) : list string :=
  omap (fs_open_read fs) filePaths.

(** No two different lines of [ls] have the same hash. *)
Definition collision_free (hasher : string -> Z) (ls : list string) : Prop :=
  ∀ x y, x ∈ ls → y ∈ ls → hasher x = hasher y → x = y.

(** A file with its last line terminated. *)
Fixpoint ends_with_newline (s : string) : bool :=
  match s with
  | EmptyString => false
  | String c EmptyString => Ascii.eqb c "010"
  | String _ s' => ends_with_newline s'
  end.

Definition terminate_last_line (s : string) : string :=
  if String.eqb s "" || ends_with_newline s then s else s ++ nl.

(** The lines a stream has yet to deliver. *)
Definition stream_lines (f : ifstream) : list string :=
  if good f then lines_of (buf f) else [].

(** What reading the line [l] does to the set and to the output. *)
Definition emit (hasher : string → Z) (st : merge_state) (l : string) : merge_state :=
  if bool_decide (hasher l ∈ written st) then MergeState (written st) (out st) true
  else MergeState ({[hasher l]} ∪ written st) (out st ++ l ++ nl) true.

(** The lines a merge of files with these contents writes. *)
Definition merge_lines (hasher : string → Z) (contents : list string) : list string :=
  dedup_hash hasher ∅ (weave (lines_of <$> contents)).

(** The warnings for the files of [filePaths] that do not open. *)
Fixpoint open_warnings (fs : filesystem) (filePaths : list string) : string :=
  match filePaths with
  | [] => ""
  | path :: filePaths' =>
      match fs_open_read fs path with
      | Some _ => open_warnings fs filePaths'
      | None =>
          ("Warning: Could not open file: " ++ path ++ nl) ++
          open_warnings fs filePaths'
      end
  end.

(** ** Instances for the examples *)

(** FNV-1a over the bytes of the string, the [std::hash<string>] of the
    Microsoft STL: 64 bits wide where [size_t] is ([fnv1a]), 32 bits wide
    where [size_t] is ([fnv1a_32]). *)
Fixpoint fnv1a_from (prime modulus h : Z) (s : string) : Z :=
  match s with
  | EmptyString => h
  | String c s' =>
      fnv1a_from prime modulus
        (Z.lxor h (Z.of_nat (nat_of_ascii c)) * prime mod modulus)%Z s'
  end.

Definition fnv1a (s : string) : Z :=
  fnv1a_from 1099511628211 (2 ^ 64) 14695981039346656037 s.

Definition fnv1a_32 (s : string) : Z :=
  fnv1a_from 16777619 (2 ^ 32) 2166136261 s.

(** Paths split at the last ['/']. *)
Fixpoint last_slash (s : string) : option nat :=
  match s with
  | EmptyString => None
  | String c s' =>
      match last_slash s' with
      | Some i => Some (S i)
      | None => if Ascii.eqb c "/" then Some O else None
      end
  end.

Definition simple_parent_path (p : string) : string :=
  match last_slash p with
  | Some i => substring 0 i p
  | None => ""
  end.

Definition simple_filename (p : string) : string :=
  match last_slash p with
  | Some i => sdrop (S i) p
  | None => p
  end.

(** [./name] names the same file as [name]. *)
Definition strip_dot (p : string) : string :=
  match p with
  | String "." (String "/" p') => p'
  | _ => p
  end.

(** A file system given by the files of the current directory: name, and
    bytes when readable; every other path is missing, every output path can
    be written. *)
Definition files_fs (files : list (string * option string)) : filesystem :=
  Filesystem
    (λ p, if bool_decide (strip_dot p ∈ files.*1) then FsOk ft_regular
          else if String.eqb p "." then FsOk ft_directory else FsOk ft_not_found)
    simple_parent_path
    simple_filename
    (λ d, if String.eqb d "."
          then (map (λ f, DirEntry ("./" ++ f.1) true) files, None)
          else ([], Some "cannot open directory"))
    (λ p, match list_find (λ f, f.1 = strip_dot p) files with
          | Some (_, (_, content)) => content
          | None => None
          end)
    (λ _, true).

(** The files of the examples. *)
Definition ex_A : string := "a1" ++ nl ++ "a2".
Definition ex_B : string := "b1" ++ nl ++ "b2" ++ nl ++ "b3" ++ nl.
Definition ex_X : string := "x" ++ nl ++ "y" ++ nl.
Definition ex_Y : string := "x" ++ nl ++ "z".

Definition ex_fs : filesystem :=
  files_fs [("A", Some ex_A); ("B", Some ex_B); ("X", Some ex_X); ("Y", Some ex_Y);
            ("locked.txt", None)].

(** One file with two lines that [fnv1a_32] does not tell apart. *)
Definition ex_fs_collision : filesystem :=
  files_fs [("W", Some ("costarring" ++ nl ++ "liquid" ++ nl))].

(** [ex_fs] with every last line terminated. *)
Definition ex_fs_terminated : filesystem :=
  Filesystem (fs_status ex_fs) (fs_parent_path ex_fs) (fs_filename ex_fs)
    (fs_directory_iterator ex_fs)
    (λ p, terminate_last_line <$> fs_open_read ex_fs p)
    (fs_open_write ex_fs).

(** ** Invariants and measures of the loops *)

(** The four ways through the body of the matcher's loop, with what each
    of them has found at the two indices. *)
Inductive wm_branch (text pattern : string) (s : wm_state) : wm_result → Prop :=
| wm_branch_char pc tc :
    String.get (pIdx s) pattern = Some pc →
    String.get (tIdx s) text = Some tc →
    pc = "?"%char ∨ pc = tc →
    wm_branch text pattern s
      (WmContinue (WmState (S (tIdx s)) (S (pIdx s)) (starIdx s) (matchIdx s)))
| wm_branch_star tc :
    String.get (pIdx s) pattern = Some "*"%char →
    String.get (tIdx s) text = Some tc →
    tc ≠ "*"%char →
    wm_branch text pattern s
      (WmContinue (WmState (tIdx s) (S (pIdx s)) (Some (pIdx s)) (tIdx s)))
| wm_branch_back tc st :
    String.get (tIdx s) text = Some tc →
    (∀ pc, String.get (pIdx s) pattern = Some pc →
           pc ≠ "?"%char ∧ pc ≠ tc ∧ pc ≠ "*"%char) →
    starIdx s = Some st →
    wm_branch text pattern s
      (WmContinue (WmState (S (matchIdx s)) (S st) (Some st) (S (matchIdx s))))
| wm_branch_fail tc :
    String.get (tIdx s) text = Some tc →
    (∀ pc, String.get (pIdx s) pattern = Some pc →
           pc ≠ "?"%char ∧ pc ≠ tc ∧ pc ≠ "*"%char) →
    starIdx s = None →
    wm_branch text pattern s WmReturnFalse.

(** What the matcher keeps true: a match of what is left gives a match of
    the whole, also from the position recorded at the last [*]. *)
Definition wm_sound_inv (text pattern : string) (s : wm_state) : Prop :=
  tIdx s ≤ String.length text ∧
  pIdx s ≤ String.length pattern ∧
  (glob_matches (sdrop (pIdx s) pattern) (sdrop (tIdx s) text) →
   glob_matches pattern text) ∧
  ∀ st, starIdx s = Some st →
    String.get st pattern = Some "*"%char ∧ st < pIdx s ∧
    matchIdx s ≤ tIdx s ∧
    (glob_matches (sdrop st pattern) (sdrop (matchIdx s) text) →
     glob_matches pattern text).

(** What decreases at every iteration of the matcher's loop. *)
Definition wm_measure (text pattern : string) (s : wm_state) : nat :=
  let K := S (String.length text) in
  match starIdx s with
  | None => S (String.length pattern)
  | Some st => String.length pattern - st
  end * (K * K)
  + (String.length text - matchIdx s) * K
  + (String.length text - tIdx s).

(** The [n] characters of the pattern from index [a] on are no stars. *)
Definition star_free_segment (pattern : string) (a n : nat) : Prop :=
  ∀ j, j < n → ∃ pc, String.get (a + j) pattern = Some pc ∧ pc ≠ "*"%char.

(** What the matcher keeps true when the pattern does match: without a
    star so far, what is left matches; after a star, the part behind it
    matches from some position [k] not before the recorded one, and the
    characters consumed since are as many as the pattern's. *)
Definition wm_complete_inv (text pattern : string) (s : wm_state) : Prop :=
  match starIdx s with
  | None => glob_matches (sdrop (pIdx s) pattern) (sdrop (tIdx s) text)
  | Some st =>
      pIdx s - S st = tIdx s - matchIdx s ∧
      star_free_segment pattern (S st) (pIdx s - S st) ∧
      ∃ k, matchIdx s ≤ k ∧ k ≤ String.length text ∧
           glob_matches (sdrop (S st) pattern) (sdrop k text)
  end.

(** [ex_fs] with a path whose status cannot be read. *)
Definition ex_fs_denied : filesystem :=
  Filesystem
    (λ p, if String.eqb p "denied/list.txt" then FsError "status: Permission denied"
          else fs_status ex_fs p)
    (fs_parent_path ex_fs) (fs_filename ex_fs) (fs_directory_iterator ex_fs)
    (fs_open_read ex_fs) (fs_open_write ex_fs).

(** A file system with the output of the merge of [X] and [Y]. *)
Definition ex_fs_merged : filesystem :=
  files_fs [("merged.txt", Some ("x" ++ nl ++ "y" ++ nl ++ "z" ++ nl))].

(** ** Vocabulary of the further properties *)

(** A pattern without [*] against a candidate, character by character:
    [?] stands for any character, every other character for itself. *)
Fixpoint chars_match (pattern text : string) : bool :=
  match pattern, text with
  | EmptyString, EmptyString => true
  | String pc p, String tc t =>
      (Ascii.eqb pc "?"%char || Ascii.eqb pc tc) && chars_match p t
  | _, _ => false
  end.

(** The directory a wildcard pattern is looked up in (lines 49-55). *)
Definition wildcard_dir (fs : filesystem) (pattern : string) : string :=
  if String.eqb (fs_parent_path fs pattern) "" then "."
  else fs_parent_path fs pattern.

(** The test of lines 60-62 on a directory entry. *)
Definition entry_matches (fs : filesystem) (filename : string)
    (entry : dir_entry) : bool :=
  entry_is_regular entry &&
  wildcardMatch (fs_filename fs (entry_path entry)) filename.

(** Where a resolved path can come from: a literal pattern that names a
    regular file, or a regular entry of the directory of a wildcard
    pattern whose name the file name part of the pattern matches. *)
Definition resolved_from (fs : filesystem) (patterns : list string)
    (path : string) : Prop :=
  (path ∈ patterns ∧ has_wildcard path = false ∧
   fs_status fs path = FsOk ft_regular) ∨
  (∃ pattern entry,
     pattern ∈ patterns ∧ has_wildcard pattern = true ∧
     fs_status fs (wildcard_dir fs pattern) = FsOk ft_directory ∧
     entry ∈ (fs_directory_iterator fs (wildcard_dir fs pattern)).1 ∧
     entry_path entry = path ∧ entry_is_regular entry = true ∧
     glob_matches (fs_filename fs pattern) (fs_filename fs path)).

(** What a run gives from [result] and [cerr] when it gives [o] from
    nothing. *)
Definition after_prefix (result : list string) (cerr : string)
    (o : outcome (list string) * string) : outcome (list string) * string :=
  match o with
  | (Returned result', cerr') => (Returned (result ++ result')%list, cerr ++ cerr')
  | (Thrown what, cerr') => (Thrown what, cerr ++ cerr')
  end.

(** Deciding whether a hash is in a set that is given by unions. *)
Ltac fresh_hash := rewrite bool_decide_eq_false_2 by set_solver.
Ltac seen_hash := rewrite bool_decide_eq_true_2 by set_solver.

(* ===================================================================== *)
(** * Part II: properties                                                 *)
(* ===================================================================== *)

(** ** Strings *)

Lemma get_Some_lt i s c : String.get i s = Some c → i < String.length s.
Proof.
  revert i; induction s as [|d s IH]; intros [|i]; simpl; try done; try lia.
  intros H. apply IH in H. lia.
Qed.

Lemma get_None_ge i s : String.get i s = None ↔ String.length s ≤ i.
Proof.
  revert i; induction s as [|d s IH]; intros [|i]; simpl.
  - split; [lia | done].
  - split; [lia | done].
  - split; [done | lia].
  - rewrite IH. lia.
Qed.

Lemma sdrop_get_Some i s c :
  String.get i s = Some c → sdrop i s = String c (sdrop (S i) s).
Proof.
  revert i; induction s as [|d s IH]; intros [|i]; simpl; try done.
  - by intros [= ->].
  - intros H. by rewrite (IH _ H).
Qed.

Lemma sdrop_ge i s : String.length s ≤ i → sdrop i s = "".
Proof.
  revert i; induction s as [|d s IH]; intros [|i]; simpl; try done; try lia.
  intros H. apply IH. lia.
Qed.

Lemma sdrop_get_None i s : String.get i s = None → sdrop i s = "".
Proof. rewrite get_None_ge. apply sdrop_ge. Qed.

(** ** wildcardMatch: what a pattern means *)

Lemma glob_matches_same c p t :
  glob_matches p t → glob_matches (String c p) (String c t).
Proof.
  intros H. destruct (Ascii.eqb_spec c "*") as [->|Hs].
  - by apply gm_star_more, gm_star_none.
  - destruct (Ascii.eqb_spec c "?") as [->|Hq]; [by apply gm_any | by apply gm_char].
Qed.

Lemma all_stars_matches p : all_stars p = true → glob_matches p "".
Proof.
  induction p as [|c p IH]; simpl; [constructor|].
  intros [Hc Hp]%andb_prop. apply Ascii.eqb_eq in Hc as ->.
  apply gm_star_none; auto.
Qed.

Lemma glob_matches_empty p : glob_matches p "" → all_stars p = true.
Proof.
  intros H. remember "" as t eqn:Ht.
  induction H; try discriminate; simpl; auto.
Qed.

(** ** wildcardMatch: the branches of the loop body *)

Lemma wm_body_branch text pattern s :
  tIdx s < String.length text →
  wm_branch text pattern s (wm_body text pattern s).
Proof.
  intros Hlt.
  destruct (String.get (tIdx s) text) as [tc|] eqn:Ht;
    [|apply get_None_ge in Ht; lia].
  unfold wm_body, wm_char_matches, wm_at_star. rewrite Ht.
  destruct (String.get (pIdx s) pattern) as [pc|] eqn:Hp.
  - destruct (Ascii.eqb_spec pc "?") as [->|Hq]; simpl.
    { eapply wm_branch_char; eauto. }
    destruct (Ascii.eqb_spec pc tc) as [->|Hc].
    { eapply wm_branch_char; eauto. }
    destruct (Ascii.eqb_spec pc "*") as [->|Hs].
    { eapply wm_branch_star; eauto. }
    destruct (starIdx s) as [st|] eqn:Hst.
    + eapply wm_branch_back; eauto.
      intros pc0 Hpc0. rewrite Hp in Hpc0. injection Hpc0 as <-. auto.
    + eapply wm_branch_fail; eauto.
      intros pc0 Hpc0. rewrite Hp in Hpc0. injection Hpc0 as <-. auto.
  - destruct (starIdx s) as [st|] eqn:Hst.
    + eapply wm_branch_back; eauto. intros pc0 Hpc0. congruence.
    + eapply wm_branch_fail; eauto. intros pc0 Hpc0. congruence.
Qed.

(** ** wildcardMatch: the loop ends, and a match it reports is a match *)

Lemma wm_measure_bound text pattern s :
  wm_sound_inv text pattern s →
  wm_measure text pattern s < wm_fuel text pattern.
Proof.
  intros (Ht & _ & _ & Hst). unfold wm_measure, wm_fuel.
  set (K := S (String.length text)).
  assert (String.length text - matchIdx s < K) by (unfold K; lia).
  assert (String.length text - tIdx s < K) by (unfold K; lia).
  assert (match starIdx s with
          | Some st => String.length pattern - st
          | None => S (String.length pattern)
          end ≤ S (String.length pattern)) as HA
    by (destruct (starIdx s); lia).
  nia.
Qed.

Lemma wm_init_inv text pattern : wm_sound_inv text pattern wm_init.
Proof.
  split; [simpl; lia|]. split; [simpl; lia|]. split; [done|]. by intros st [=].
Qed.

Lemma wm_body_inv text pattern s s' :
  wm_sound_inv text pattern s →
  tIdx s < String.length text →
  wm_body text pattern s = WmContinue s' →
  wm_sound_inv text pattern s' ∧
  wm_measure text pattern s' < wm_measure text pattern s.
Proof.
  intros (Ht & Hple & Hm & Hst) Hlt Hbody.
  pose proof (wm_body_branch text pattern s Hlt) as Hbr.
  rewrite Hbody in Hbr. unfold wm_measure.
  set (K := S (String.length text)).
  inversion Hbr as [pc tc Hp Htc Hpc|tc Hp Htc Hne|tc st Htc Hp Hs|]; subst;
    cbn [tIdx pIdx starIdx matchIdx].
  - (* a character of the candidate is consumed *)
    pose proof (get_Some_lt _ _ _ Hp) as Hplt.
    split; [|lia]. split; [simpl; lia|]. split; [simpl; lia|]. split.
    + simpl. intros H. apply Hm.
      rewrite (sdrop_get_Some _ _ _ Hp), (sdrop_get_Some _ _ _ Htc).
      destruct Hpc as [->| ->]; [by apply gm_any | by apply glob_matches_same].
    + simpl. intros st Hs. destruct (Hst st Hs) as (? & ? & ? & ?).
      repeat split; auto; lia.
  - (* a star is recorded *)
    pose proof (get_Some_lt _ _ _ Hp) as Hplt.
    split.
    + split; [simpl; lia|]. split; [simpl; lia|]. split.
      * simpl. intros H. apply Hm.
        rewrite (sdrop_get_Some _ _ _ Hp). by apply gm_star_none.
      * simpl. intros st [= <-]. repeat split; auto.
    + assert (String.length text - tIdx s < K) by (unfold K; lia).
      set (x := String.length text - tIdx s) in *.
      assert (x * K + x < K * K) as Hx by nia.
      assert (∀ A, String.length pattern - pIdx s < A →
                   (String.length pattern - pIdx s) * (K * K) + K * K ≤ A * (K * K))
        as HA by (intros A HA; nia).
      destruct (starIdx s) as [st|].
      * destruct (Hst st eq_refl) as (? & ? & ? & ?).
        assert (String.length pattern - pIdx s < String.length pattern - st)
          as HA' by lia.
        apply HA in HA'. clearbody x K. nia.
      * assert (String.length pattern - pIdx s < S (String.length pattern))
          as HA' by lia.
        apply HA in HA'. clearbody x K. nia.
  - (* back to the last star, one character further *)
    destruct (Hst st Hs) as (Hg & Hlt' & Hle & Hm').
    assert (sdrop (matchIdx s) text =
            String (default "*"%char (String.get (matchIdx s) text))
                   (sdrop (S (matchIdx s)) text)) as Hdrop.
    { destruct (String.get (matchIdx s) text) as [c|] eqn:Hc.
      - by apply sdrop_get_Some.
      - apply get_None_ge in Hc. lia. }
    pose proof (get_Some_lt _ _ _ Hg) as Hglt.
    split.
    + split; [simpl; lia|]. split; [simpl; lia|]. split.
      * simpl. intros H. apply Hm'.
        rewrite (sdrop_get_Some _ _ _ Hg), Hdrop.
        by apply gm_star_more, gm_star_none.
      * simpl. intros st' [= <-]. repeat split; auto.
        intros H. apply Hm'. rewrite Hdrop.
        rewrite (sdrop_get_Some _ _ _ Hg) in H |- *.
        by apply gm_star_more.
    + rewrite Hs. unfold K. nia.
Qed.

Lemma wm_loop_inv text pattern fuel s :
  wm_sound_inv text pattern s →
  wm_measure text pattern s < fuel →
  wm_loop fuel text pattern s = WmFalse ∨
  ∃ s', wm_loop fuel text pattern s = WmExit s' ∧
        wm_sound_inv text pattern s' ∧ tIdx s' = String.length text.
Proof.
  revert s. induction fuel as [|fuel IH]; intros s Hinv Hfuel; [lia|].
  simpl. destruct (Nat.ltb_spec (tIdx s) (String.length text)) as [Hlt|Hge].
  - destruct (wm_body text pattern s) as [s'|] eqn:Hbody; [|by left].
    destruct (wm_body_inv _ _ _ _ Hinv Hlt Hbody) as [Hinv' Hdec].
    apply IH; [done | lia].
  - right. exists s. split; [done|]. split; [done|].
    destruct Hinv as (? & _). lia.
Qed.

(** The first loop always ends within [wm_fuel] iterations. *)
Lemma wm_loop_terminates text pattern :
  wm_loop (wm_fuel text pattern) text pattern wm_init ≠ WmOutOfFuel.
Proof.
  destruct (wm_loop_inv text pattern (wm_fuel text pattern) wm_init)
    as [H|(s' & H & _)].
  - apply wm_init_inv.
  - apply wm_measure_bound, wm_init_inv.
  - by rewrite H.
  - by rewrite H.
Qed.

Lemma wm_skip_stars_spec n pattern p :
  String.length pattern ≤ p + n →
  p ≤ String.length pattern →
  (wm_skip_stars n pattern p =? String.length pattern) = all_stars (sdrop p pattern).
Proof.
  revert p. induction n as [|n IH]; intros p Hn Hp; simpl.
  - assert (p = String.length pattern) as -> by lia.
    rewrite Nat.eqb_refl, sdrop_ge; [done | lia].
  - unfold wm_at_star. destruct (String.get p pattern) as [pc|] eqn:Hpc.
    + rewrite (sdrop_get_Some _ _ _ Hpc). simpl.
      pose proof (get_Some_lt _ _ _ Hpc).
      destruct (Ascii.eqb pc "*"); simpl.
      * apply IH; lia.
      * apply Nat.eqb_neq. lia.
    + rewrite (sdrop_get_None _ _ Hpc). simpl.
      apply get_None_ge in Hpc. apply Nat.eqb_eq. lia.
Qed.

(** [wildcardMatch] in terms of its two loops: the first loop must use up
    the candidate, and what it leaves of the pattern must be stars only. *)
Lemma wildcardMatch_unfold text pattern :
  wildcardMatch text pattern = true ↔
  ∃ s, wm_loop (wm_fuel text pattern) text pattern wm_init = WmExit s ∧
       tIdx s = String.length text ∧
       all_stars (sdrop (pIdx s) pattern) = true.
Proof.
  unfold wildcardMatch.
  destruct (wm_loop_inv text pattern (wm_fuel text pattern) wm_init)
    as [H|(s' & H & Hinv & Ht)].
  - apply wm_init_inv.
  - apply wm_measure_bound, wm_init_inv.
  - rewrite H. split; [done | by intros (s & [=] & _)].
  - rewrite H. destruct Hinv as (_ & Hp & _).
    rewrite wm_skip_stars_spec by lia.
    split; [intros Hs; by exists s' | by intros (s & [= <-] & _ & Hs)].
Qed.

(** Soundness: a reported match is a match of the whole pattern against
    the whole candidate. *)
Lemma wildcardMatch_sound text pattern :
  wildcardMatch text pattern = true → glob_matches pattern text.
Proof.
  intros (s & Hloop & Ht & Hstars)%wildcardMatch_unfold.
  destruct (wm_loop_inv text pattern (wm_fuel text pattern) wm_init)
    as [H|(s' & H & Hinv & _)].
  - apply wm_init_inv.
  - apply wm_measure_bound, wm_init_inv.
  - congruence.
  - rewrite Hloop in H. injection H as <-.
    destruct Hinv as (_ & _ & Hm & _). apply Hm.
    rewrite Ht, (sdrop_ge _ text) by lia. by apply all_stars_matches.
Qed.

(** ** wildcardMatch: a match is found when there is one *)

Lemma sdrop_sdrop i j s : sdrop j (sdrop i s) = sdrop (i + j) s.
Proof.
  revert s. induction i as [|i IH]; intros s; simpl; [done|].
  destruct s as [|c s]; [by destruct j | apply IH].
Qed.

Lemma sdrop_length i s : String.length (sdrop i s) = String.length s - i.
Proof.
  revert s. induction i as [|i IH]; intros s; simpl; [lia|].
  destruct s as [|c s]; simpl; [done | apply IH].
Qed.

Lemma sdrop_String i s c r :
  sdrop i s = String c r → String.get i s = Some c ∧ r = sdrop (S i) s.
Proof.
  revert s. induction i as [|i IH]; intros s; simpl.
  - destruct s; [done|]. by intros [= -> ->].
  - destruct s as [|d s]; [done|]. apply IH.
Qed.

Lemma find_None_get c s i d : find c s = None → String.get i s = Some d → d ≠ c.
Proof.
  revert i. induction s as [|e s IH]; intros i; simpl; [done|].
  destruct (Ascii.eqb_spec e c) as [->|Hne]; [done|].
  destruct (find c s); [done|]. intros _.
  destruct i as [|i]; [by intros [= <-] | by apply IH].
Qed.

Lemma glob_matches_char_inv pc p t :
  pc ≠ "*"%char → glob_matches (String pc p) t →
  ∃ tc t', t = String tc t' ∧ (pc = "?"%char ∨ pc = tc) ∧ glob_matches p t'.
Proof.
  intros Hpc H. inversion H; subst; try done; eauto 6.
Qed.

Lemma glob_matches_star_inv p t :
  glob_matches (String "*" p) t →
  ∃ j, j ≤ String.length t ∧ glob_matches p (sdrop j t).
Proof.
  intros H. remember (String "*" p) as q eqn:Hq.
  induction H as [|p' t c H IH|p' t c Hc _ H IH|p' t H IH|p' t c H IH];
    try discriminate.
  - by injection Hq as Hq _.
  - injection Hq as ->. exists 0. split; [lia | done].
  - destruct (IH Hq) as (j & Hj & Hm). exists (S j). simpl. split; [lia | done].
Qed.

Lemma glob_matches_nil_inv t : glob_matches "" t → t = "".
Proof. by inversion 1. Qed.

Lemma glob_matches_segment text pattern a k n :
  star_free_segment pattern a n →
  k ≤ String.length text →
  glob_matches (sdrop a pattern) (sdrop k text) →
  k + n ≤ String.length text ∧
  glob_matches (sdrop (a + n) pattern) (sdrop (k + n) text).
Proof.
  intros Hseg Hk Hm. induction n as [|n IH].
  - rewrite !Nat.add_0_r. split; [lia | done].
  - destruct IH as [Hkn Hmn]; [intros j Hj; apply Hseg; lia|].
    destruct (Hseg n) as (pc & Hpc & Hns); [lia|].
    rewrite (sdrop_get_Some _ _ _ Hpc) in Hmn.
    apply glob_matches_char_inv in Hmn as (tc & t' & Ht' & _ & Hm'); [|done].
    apply sdrop_String in Ht' as [Htc ->].
    apply get_Some_lt in Htc.
    rewrite !Nat.add_succ_r. split; [lia | done].
Qed.

Lemma glob_mismatch text pattern s tc :
  String.get (tIdx s) text = Some tc →
  (∀ pc, String.get (pIdx s) pattern = Some pc →
         pc ≠ "?"%char ∧ pc ≠ tc ∧ pc ≠ "*"%char) →
  ¬ glob_matches (sdrop (pIdx s) pattern) (sdrop (tIdx s) text).
Proof.
  intros Htc Hp Hm. rewrite (sdrop_get_Some _ _ _ Htc) in Hm.
  destruct (String.get (pIdx s) pattern) as [pc|] eqn:Hpc.
  - destruct (Hp pc eq_refl) as (Hq & Hc & Hs).
    rewrite (sdrop_get_Some _ _ _ Hpc) in Hm.
    apply glob_matches_char_inv in Hm as (tc' & t' & [= <- <-] & [?|?] & _); done.
  - rewrite (sdrop_get_None _ _ Hpc) in Hm.
    by apply glob_matches_nil_inv in Hm.
Qed.

Lemma wm_body_complete text pattern s :
  find "*" text = None →
  wm_sound_inv text pattern s →
  wm_complete_inv text pattern s →
  tIdx s < String.length text →
  ∃ s', wm_body text pattern s = WmContinue s' ∧ wm_complete_inv text pattern s'.
Proof.
  intros Hfree (Ht & Hple & _ & Hst) Hc Hlt.
  pose proof (wm_body_branch text pattern s Hlt) as Hbr.
  unfold wm_complete_inv in *.
  inversion Hbr as [pc tc Hp Htc Hpc|tc Hp Htc Hne|tc st Htc Hp Hs|tc Htc Hp Hs];
    cbn [tIdx pIdx starIdx matchIdx].
  - (* a character of the candidate is consumed *)
    eexists; split; [done|]. cbn [tIdx pIdx starIdx matchIdx].
    assert (pc ≠ "*"%char) as Hns.
    { pose proof (find_None_get _ _ _ _ Hfree Htc).
      destruct Hpc as [->| ->]; done. }
    destruct (starIdx s) as [st|].
    + destruct (Hst st eq_refl) as (_ & Hlt' & Hle & _).
      destruct Hc as (Hlen & Hseg & k & Hk).
      split; [lia|]. split; [|by exists k].
      intros j Hj. destruct (decide (j < pIdx s - S st)) as [Hj'|Hj'].
      * by apply Hseg.
      * assert (S st + j = pIdx s) as -> by lia. eauto.
    + rewrite (sdrop_get_Some _ _ _ Hp), (sdrop_get_Some _ _ _ Htc) in Hc.
      apply glob_matches_char_inv in Hc as (tc' & t' & [= <- <-] & _ & Hm); done.
  - (* a star is recorded *)
    eexists; split; [done|]. cbn [tIdx pIdx starIdx matchIdx].
    split; [lia|]. split; [intros j Hj; lia|].
    assert (∃ k, tIdx s ≤ k ∧ k ≤ String.length text ∧
                 glob_matches (sdrop (pIdx s) pattern) (sdrop k text))
      as (k & Hk1 & Hk2 & Hm).
    { destruct (starIdx s) as [st|].
      - destruct (Hst st eq_refl) as (_ & Hlt' & Hle & _).
        destruct Hc as (Hlen & Hseg & k & Hk1 & Hk2 & Hm).
        apply (glob_matches_segment _ _ _ _ _ Hseg Hk2) in Hm as [Hkn Hm].
        replace (S st + (pIdx s - S st)) with (pIdx s) in Hm by lia.
        exists (k + (pIdx s - S st)). split; [lia|]. split; [lia | done].
      - exists (tIdx s). split; [lia|]. split; [lia | done]. }
    rewrite (sdrop_get_Some _ _ _ Hp) in Hm.
    apply glob_matches_star_inv in Hm as (j & Hj & Hm).
    rewrite sdrop_length in Hj. rewrite sdrop_sdrop in Hm.
    exists (k + j). split; [lia|]. split; [lia | done].
  - (* back to the last star, one character further *)
    eexists; split; [done|]. cbn [tIdx pIdx starIdx matchIdx].
    rewrite Hs in Hc. destruct (Hst st Hs) as (_ & Hlt' & Hle & _).
    destruct Hc as (Hlen & Hseg & k & Hk1 & Hk2 & Hm).
    split; [lia|]. split; [intros j Hj; lia|].
    exists k. split; [|split; [lia | done]].
    destruct (decide (k = matchIdx s)) as [->|Hne]; [|lia].
    exfalso. apply (glob_mismatch text pattern s tc Htc Hp).
    apply (glob_matches_segment _ _ _ _ _ Hseg Hk2) in Hm as [_ Hm].
    replace (S st + (pIdx s - S st)) with (pIdx s) in Hm by lia.
    replace (matchIdx s + (pIdx s - S st)) with (tIdx s) in Hm by lia.
    done.
  - (* no star to go back to: there is no match *)
    rewrite Hs in Hc. by destruct (glob_mismatch text pattern s tc Htc Hp).
Qed.

Lemma wm_loop_complete text pattern fuel s :
  find "*" text = None →
  wm_sound_inv text pattern s →
  wm_complete_inv text pattern s →
  wm_measure text pattern s < fuel →
  ∃ s', wm_loop fuel text pattern s = WmExit s' ∧
        wm_sound_inv text pattern s' ∧ wm_complete_inv text pattern s' ∧
        tIdx s' = String.length text.
Proof.
  intros Hfree. revert s.
  induction fuel as [|fuel IH]; intros s Hinv Hc Hfuel; [lia|].
  simpl. destruct (Nat.ltb_spec (tIdx s) (String.length text)) as [Hlt|Hge].
  - destruct (wm_body_complete _ _ _ Hfree Hinv Hc Hlt) as (s' & Hbody & Hc').
    rewrite Hbody.
    destruct (wm_body_inv _ _ _ _ Hinv Hlt Hbody) as [Hinv' Hdec].
    apply IH; [done | done | lia].
  - exists s. split; [done|]. split; [done|]. split; [done|].
    destruct Hinv as (? & _). lia.
Qed.

(** Completeness: on a candidate without a star character, every match of
    the whole pattern against the whole candidate is found. *)
Lemma wildcardMatch_complete text pattern :
  find "*" text = None →
  glob_matches pattern text → wildcardMatch text pattern = true.
Proof.
  intros Hfree Hm. apply wildcardMatch_unfold.
  destruct (wm_loop_complete text pattern (wm_fuel text pattern) wm_init Hfree)
    as (s & Hloop & Hinv & Hc & Ht).
  - apply wm_init_inv.
  - done.
  - apply wm_measure_bound, wm_init_inv.
  - exists s. split; [done|]. split; [done|].
    apply glob_matches_empty.
    unfold wm_complete_inv in Hc. destruct Hinv as (_ & Hple & _ & Hst).
    destruct (starIdx s) as [st|].
    + destruct (Hst st eq_refl) as (_ & Hlt' & Hle & _).
      destruct Hc as (Hlen & Hseg & k & Hk1 & Hk2 & Hm').
      apply (glob_matches_segment _ _ _ _ _ Hseg Hk2) in Hm' as [Hkn Hm'].
      replace (S st + (pIdx s - S st)) with (pIdx s) in Hm' by lia.
      rewrite (sdrop_ge _ text) in Hm' by lia. done.
    + rewrite Ht, (sdrop_ge _ text) in Hc by lia. done.
Qed.

(** ** wildcardMatch, summed up *)

(** C6: the matcher accepts [a.txt] for [*.txt] and rejects [a.txt.bak];
    it accepts [file1.txt] for [file?.txt] and rejects [file12.txt] and
    [file.txt]. It accepts only when the whole pattern matches the whole
    candidate: the first loop has to use up the candidate, and what it
    leaves of the pattern has to be stars only, which the second loop
    skips. On a candidate that has no star character in it the matcher
    accepts every such match. *)
Theorem wildcardMatch_full_match :
  wildcardMatch "a.txt" "*.txt" = true ∧
  wildcardMatch "a.txt.bak" "*.txt" = false ∧
  wildcardMatch "file1.txt" "file?.txt" = true ∧
  wildcardMatch "file12.txt" "file?.txt" = false ∧
  wildcardMatch "file.txt" "file?.txt" = false ∧
  (∀ text pattern,
     wildcardMatch text pattern = true → glob_matches pattern text) ∧
  (∀ text pattern,
     wildcardMatch text pattern = true ↔
     ∃ s, wm_loop (wm_fuel text pattern) text pattern wm_init = WmExit s ∧
          tIdx s = String.length text ∧
          all_stars (sdrop (pIdx s) pattern) = true) ∧
  (∀ pattern, wildcardMatch "" pattern = all_stars pattern) ∧
  (∀ text pattern,
     find "*" text = None →
     glob_matches pattern text → wildcardMatch text pattern = true).
Proof.
  do 5 (split; [reflexivity|]).
  split; [apply wildcardMatch_sound|].
  split; [apply wildcardMatch_unfold|].
  split; [|apply wildcardMatch_complete].
  intros pattern. unfold wildcardMatch.
  assert (∀ fuel, wm_loop fuel "" pattern wm_init = WmExit wm_init) as ->
    by (by intros [|?]).
  apply wm_skip_stars_spec; simpl; lia.
Qed.

Lemma wildcardMatch_full_match_witness :
  glob_matches "*.txt" "a.txt" ∧ wildcardMatch "b.txt" "?.*" = true.
Proof.
  destruct wildcardMatch_full_match as (_ & _ & _ & _ & _ & Hs & _ & _ & Hc).
  split.
  - apply Hs. reflexivity.
  - apply Hc; [reflexivity|].
    apply gm_any, gm_char; [done | done|].
    apply gm_star_more, gm_star_more, gm_star_more, gm_star_none, gm_empty.
Defined.

(** A candidate with a star in it: the star of the pattern is taken for
    the star of the candidate, and the match of [*] with [*b] is missed. *)
Example wildcardMatch_star_in_candidate : wildcardMatch "*b" "*" = false.
Proof. reflexivity. Qed.

(** ** Lines *)

Lemma append_cons c (s t : string) : String c s ++ t = String c (s ++ t).
Proof. reflexivity. Qed.

Lemma append_nil_l (s : string) : "" ++ s = s.
Proof. reflexivity. Qed.

Lemma append_nil_r s : s ++ "" = s.
Proof.
  induction s as [|c s IH]; [done|]. by rewrite append_cons, IH.
Qed.

Lemma append_assoc (s1 s2 s3 : string) : (s1 ++ s2) ++ s3 = s1 ++ (s2 ++ s3).
Proof.
  induction s1 as [|c s1 IH]; [done|]. by rewrite !append_cons, IH.
Qed.

Lemma unlines_app l1 l2 : unlines (l1 ++ l2)%list = unlines l1 ++ unlines l2.
Proof.
  induction l1 as [|l l1 IH]; simpl; [done|].
  by rewrite IH, !append_assoc.
Qed.

(** What [read_line] extracts, in terms of the lines of the data. *)
Lemma read_line_spec s :
  match read_line s with
  | (l, Some rest) =>
      lines_of s = l :: lines_of rest ∧ String.length rest < String.length s
  | (l, None) =>
      l = s ∧ lines_of s = if String.eqb s "" then [] else [s]
  end.
Proof.
  induction s as [|c s IH]; simpl; [done|].
  destruct (Ascii.eqb c "010") eqn:Hc; [split; [done | lia]|].
  destruct (read_line s) as [l [rest|]].
  - destruct IH as [-> Hlen]. split; [done | lia].
  - destruct IH as [-> Hl]. split; [done|]. rewrite Hl.
    by destruct s.
Qed.

(** ** One stream, one round *)

Section WeaveProofs.

Variable hasher : string → Z.

Lemma visit_spec f st :
  ∃ f', visit hasher f st =
          (f', match stream_lines f with
               | [] => st
               | l :: _ => emit hasher st l
               end) ∧
        stream_lines f' = tl (stream_lines f) ∧
        String.length (buf f') ≤ String.length (buf f) ∧
        (stream_lines f ≠ [] → String.length (buf f') < String.length (buf f)).
Proof.
  unfold visit, stream_lines, getline.
  destruct (good f) eqn:Hgood; simpl.
  2:{ exists f. rewrite Hgood. split; [done|]. split; [done|]. split; [lia | done]. }
  pose proof (read_line_spec (buf f)) as Hrl.
  destruct (read_line (buf f)) as [l [rest|]].
  - destruct Hrl as [-> Hlen]. simpl. unfold emit.
    destruct (bool_decide (hasher l ∈ written st));
      (eexists; split; [reflexivity|]; simpl;
       split; [done|]; split; [lia | done]).
  - destruct Hrl as [-> Hl]. rewrite Hl.
    destruct (buf f) as [|c b] eqn:Hb; simpl.
    + eexists. split; [done|]. simpl. split; [done|]. split; [lia | done].
    + unfold emit.
      destruct (bool_decide (hasher (String c b) ∈ written st));
        (eexists; split; [reflexivity|]; simpl; split; [done|];
         split; [lia | intros _; lia]).
Qed.

Lemma tails_cons ls lss : tails (ls :: lss) = tl ls :: tails lss.
Proof. reflexivity. Qed.

Lemma round_spec files st :
  ∃ files', round hasher files st =
              (files', fold_left (emit hasher) (heads (stream_lines <$> files)) st) ∧
            stream_lines <$> files' = tails (stream_lines <$> files) ∧
            unread files' ≤ unread files ∧
            (heads (stream_lines <$> files) ≠ [] → unread files' < unread files).
Proof.
  revert st. induction files as [|f files IH]; intros st.
  { exists []. simpl. split; [done|]. split; [done|]. split; [lia | done]. }
  rewrite fmap_cons, tails_cons. cbn [round unread].
  destruct (visit_spec f st) as (f' & -> & Hl & Hle & Hlt).
  destruct (IH (match stream_lines f with
                | [] => st
                | l :: _ => emit hasher st l
                end)) as (files' & -> & Hls & Hle' & Hlt').
  exists (f' :: files'). rewrite fmap_cons, Hl, Hls. cbn [unread].
  destruct (stream_lines f) as [|l ls]; cbn [heads fold_left tl].
  - split; [done|]. split; [done|]. split; [lia|].
    intros H. specialize (Hlt' H). lia.
  - split; [done|]. split; [done|]. split; [lia|].
    intros _. assert (l :: ls ≠ []) as H by done. specialize (Hlt H). lia.
Qed.

(** ** Feeding lines to the deduplication *)

Lemma emit_fold ls st :
  let st' := fold_left (emit hasher) ls st in
  written st' = written st ∪ list_to_set (hasher <$> ls) ∧
  out st' = out st ++ unlines (dedup_hash hasher (written st) ls) ∧
  anyAlive st' = anyAlive st || bool_decide (ls ≠ []).
Proof.
  revert st. induction ls as [|l ls IH]; intros st; simpl.
  { split; [set_solver|]. split; [by rewrite append_nil_r|].
    by rewrite orb_false_r. }
  destruct (IH (emit hasher st l)) as (Hw & Ho & Ha).
  rewrite Hw, Ho, Ha. unfold emit.
  destruct (bool_decide_reflect (hasher l ∈ written st)) as [Hin|Hnin]; simpl.
  - split; [set_solver|]. split; [done|]. by rewrite orb_true_r.
  - split; [set_solver|]. split; [by rewrite !append_assoc|]. by rewrite orb_true_r.
Qed.

Lemma dedup_hash_app seen l1 l2 :
  dedup_hash hasher seen (l1 ++ l2)%list =
  (dedup_hash hasher seen l1 ++
   dedup_hash hasher (seen ∪ list_to_set (hasher <$> l1)) l2)%list.
Proof.
  revert seen. induction l1 as [|l l1 IH]; intros seen; simpl.
  { by rewrite (right_id_L ∅ (∪)). }
  destruct (bool_decide_reflect (hasher l ∈ seen)) as [Hin|Hnin].
  - rewrite IH. do 2 f_equal. set_solver.
  - simpl. rewrite IH. do 3 f_equal. set_solver.
Qed.

(** ** The interleaving *)

Lemma max_len_tails lss :
  max_list (length <$> tails lss) = max_list (length <$> lss) - 1.
Proof.
  induction lss as [|ls lss IH]; [done|].
  rewrite tails_cons, !fmap_cons. cbn [max_list]. rewrite IH.
  destruct ls; simpl; lia.
Qed.

Lemma heads_nil_max_len lss :
  heads lss = [] ↔ max_list (length <$> lss) = 0.
Proof.
  induction lss as [|ls lss IH]; [done|].
  rewrite fmap_cons. cbn [max_list heads].
  destruct ls as [|l ls]; simpl; [by rewrite IH|].
  split; [done | lia].
Qed.

Lemma weave_unfold lss : weave lss = (heads lss ++ weave (tails lss))%list.
Proof.
  unfold weave. rewrite max_len_tails.
  destruct (max_list (length <$> lss)) as [|m] eqn:Hm; simpl.
  - apply heads_nil_max_len in Hm. by rewrite Hm.
  - by rewrite Nat.sub_0_r.
Qed.

Lemma weave_heads_nil lss : heads lss = [] → weave lss = [].
Proof. intros H. apply heads_nil_max_len in H. unfold weave. by rewrite H. Qed.

Lemma heads_tails_nil lss : heads lss = [] → heads (tails lss) = [].
Proof.
  induction lss as [|[|l ls] lss IH]; rewrite ?tails_cons; simpl; auto.
  done.
Qed.

(** ** The loop of rounds *)

Lemma weave_body_spec w :
  let lss := stream_lines <$> ws_files w in
  let '(w', alive) := weave_body hasher w in
  stream_lines <$> ws_files w' = tails lss ∧
  ws_out w' = ws_out w ++ unlines (dedup_hash hasher (ws_written w) (heads lss)) ∧
  ws_written w' = ws_written w ∪ list_to_set (hasher <$> heads lss) ∧
  alive = bool_decide (heads lss ≠ []) ∧
  unread (ws_files w') ≤ unread (ws_files w) ∧
  (alive = true → unread (ws_files w') < unread (ws_files w)).
Proof.
  unfold weave_body.
  destruct (round_spec (ws_files w) (MergeState (ws_written w) (ws_out w) false))
    as (files' & -> & Hls & Hle & Hlt).
  pose proof (emit_fold (heads (stream_lines <$> ws_files w))
                (MergeState (ws_written w) (ws_out w) false)) as (Hw & Ho & Ha).
  cbn [written out anyAlive ws_files ws_out ws_written orb] in *.
  rewrite Ha, Hw, Ho. repeat split; try done.
  intros Halive. apply Hlt. by apply bool_decide_eq_true in Halive.
Qed.

(** Whatever the loop returns is the deduplicated interleaving of what
    the streams had left. *)
Lemma weave_loop_sound fuel w w' :
  weave_loop hasher fuel w = Some w' →
  ws_out w' =
    ws_out w ++
    unlines (dedup_hash hasher (ws_written w) (weave (stream_lines <$> ws_files w))) ∧
  ws_written w' =
    ws_written w ∪ list_to_set (hasher <$> weave (stream_lines <$> ws_files w)).
Proof.
  revert w. induction fuel as [|fuel IH]; intros w; [done|].
  cbn [weave_loop]. pose proof (weave_body_spec w) as Hbody.
  destruct (weave_body hasher w) as [w1 alive].
  destruct Hbody as (Hls & Hout & Hwr & -> & _).
  rewrite (weave_unfold (stream_lines <$> ws_files w)).
  destruct (heads (stream_lines <$> ws_files w)) as [|h hs] eqn:Hh.
  - rewrite bool_decide_eq_false_2 by (by intros H). intros [= <-].
    rewrite (weave_heads_nil (tails _)) by (by apply heads_tails_nil).
    by rewrite Hout, Hwr.
  - rewrite bool_decide_eq_true_2 by done. intros (Hout' & Hwr')%IH.
    rewrite Hout', Hwr', Hout, Hwr, Hls.
    rewrite dedup_hash_app, unlines_app, append_assoc, fmap_app, list_to_set_app_L.
    split; [done|]. set_solver.
Qed.

(** The loop returns as soon as the fuel exceeds the bytes left to read. *)
Lemma weave_loop_returns fuel w :
  unread (ws_files w) < fuel → is_Some (weave_loop hasher fuel w).
Proof.
  revert w. induction fuel as [|fuel IH]; intros w Hfuel; [lia|].
  cbn [weave_loop]. pose proof (weave_body_spec w) as Hbody.
  destruct (weave_body hasher w) as [w1 alive].
  destruct Hbody as (_ & _ & _ & _ & Hle & Hlt).
  destruct alive; [|done]. apply IH. specialize (Hlt eq_refl). lia.
Qed.

(** ** weaveMergeDedup as a whole *)

Lemma open_files_spec fs filePaths files cerr :
  open_files fs filePaths files cerr =
  ((files ++ (open_stream <$> opened fs filePaths))%list,
   cerr ++ open_warnings fs filePaths).
Proof.
  revert files cerr. induction filePaths as [|path filePaths IH];
    intros files cerr; cbn [open_files open_warnings].
  { unfold opened. simpl. by rewrite app_nil_r, append_nil_r. }
  unfold opened in *. cbn [omap list_omap].
  destruct (fs_open_read fs path) as [content|]; rewrite IH.
  - by rewrite fmap_cons, <- app_assoc.
  - by rewrite !append_assoc.
Qed.

Lemma stream_lines_open (contents : list string) :
  stream_lines <$> (open_stream <$> contents) = lines_of <$> contents.
Proof. rewrite <- list_fmap_compose. by apply list_fmap_ext. Qed.

(** [weaveMergeDedup] returns, and what it has written is the
    deduplicated interleaving of the lines of the files that opened. *)
Lemma weaveMergeDedup_spec fs filePaths out0 cerr0 :
  ∃ cerr, weaveMergeDedup hasher fs filePaths out0 cerr0 =
            Some (out0 ++ unlines (merge_lines hasher (opened fs filePaths)), cerr).
Proof.
  unfold weaveMergeDedup, merge_lines.
  rewrite open_files_spec, app_nil_l.
  destruct (opened fs filePaths) as [|c cs].
  { eexists. simpl. by rewrite append_nil_r. }
  rewrite <- (stream_lines_open (c :: cs)).
  rewrite (fmap_cons open_stream).
  match goal with
  | |- context [weave_loop _ ?fuel ?w] =>
      destruct (weave_loop_returns fuel w) as [w' Hloop]
  end.
  { cbn [ws_files]. unfold weave_fuel. lia. }
  rewrite Hloop. apply weave_loop_sound in Hloop as [Hout _].
  cbn [ws_files ws_out ws_written] in Hout.
  rewrite Hout. by eexists.
Qed.

(** Without a file that opens, nothing is written and the error is
    reported. *)
Lemma weaveMergeDedup_none_opened fs filePaths out0 cerr0 :
  opened fs filePaths = [] →
  weaveMergeDedup hasher fs filePaths out0 cerr0 =
    Some (out0, (cerr0 ++ open_warnings fs filePaths) ++
                "Error: No files could be opened for weave-merge" ++ nl).
Proof.
  intros Hopen. unfold weaveMergeDedup.
  by rewrite open_files_spec, Hopen.
Qed.

(** ** What the deduplication keeps *)

Lemma dedup_hash_elem seen ls x :
  x ∈ dedup_hash hasher seen ls → x ∈ ls ∧ hasher x ∉ seen.
Proof.
  revert seen. induction ls as [|l ls IH]; intros seen; simpl; [by intros ?%elem_of_nil|].
  destruct (bool_decide_reflect (hasher l ∈ seen)) as [Hin|Hnin].
  - intros [? ?]%IH. split; [by right | done].
  - intros [->|[? ?]%IH]%elem_of_cons.
    + split; [by left | done].
    + split; [by right | set_solver].
Qed.

Lemma dedup_hash_NoDup seen ls : NoDup (hasher <$> dedup_hash hasher seen ls).
Proof.
  revert seen. induction ls as [|l ls IH]; intros seen; simpl; [constructor|].
  destruct (bool_decide_reflect (hasher l ∈ seen)) as [Hin|Hnin]; [apply IH|].
  rewrite fmap_cons. constructor; [|apply IH].
  intros (x & Hx & [_ Hnew]%dedup_hash_elem)%list_elem_of_fmap. set_solver.
Qed.

Lemma first_occurrences_elem ls x : x ∈ first_occurrences ls ↔ x ∈ ls.
Proof.
  induction ls as [|l ls IH]; simpl; [done|].
  rewrite !elem_of_cons, list_elem_of_filter, IH.
  destruct (decide (x = l)); naive_solver.
Qed.

Lemma first_occurrences_NoDup ls : NoDup (first_occurrences ls).
Proof.
  induction ls as [|l ls IH]; simpl; [constructor|].
  constructor; [|by apply NoDup_filter].
  rewrite list_elem_of_filter. naive_solver.
Qed.

Lemma sublist_filter_all {A} (P : A → Prop) `{∀ x, Decision (P x)} (l1 l2 : list A) :
  l1 `sublist_of` l2 → Forall P l1 → l1 `sublist_of` filter P l2.
Proof.
  induction 1 as [|x l1 l2 Hsub IH|x l1 l2 Hsub IH]; intros Hall.
  - constructor.
  - apply Forall_cons in Hall as [Hx Hall].
    rewrite filter_cons_True by done. constructor. by apply IH.
  - rewrite filter_cons. destruct (decide (P x)); [constructor|]; by apply IH.
Qed.

Lemma filter_iff_elem {A} (P1 P2 : A → Prop)
    `{∀ x, Decision (P1 x), ∀ x, Decision (P2 x)} (l : list A) :
  (∀ x, x ∈ l → P1 x ↔ P2 x) → filter P1 l = filter P2 l.
Proof.
  induction l as [|a l IH]; intros Hiff; [done|].
  rewrite !filter_cons.
  rewrite IH by (intros x Hx; apply Hiff; by right).
  apply decide_ext, Hiff. by left.
Qed.

Lemma filter_all {A} (P : A → Prop) `{∀ x, Decision (P x)} (l : list A) :
  (∀ x, P x) → filter P l = l.
Proof.
  intros HP. induction l as [|a l IH]; [done|].
  by rewrite filter_cons_True, IH.
Qed.

(** Whatever the hash function, a line is written only where it occurs
    first. *)
Lemma dedup_hash_sublist seen ls :
  dedup_hash hasher seen ls `sublist_of` first_occurrences ls.
Proof.
  revert seen. induction ls as [|l ls IH]; intros seen; simpl; [constructor|].
  destruct (bool_decide_reflect (hasher l ∈ seen)) as [Hin|Hnin].
  - apply sublist_cons, sublist_filter_all; [apply IH|].
    apply Forall_forall. intros x [_ Hx]%dedup_hash_elem ->. done.
  - apply sublist_skip, sublist_filter_all; [apply IH|].
    apply Forall_forall. intros x [_ Hx]%dedup_hash_elem ->. set_solver.
Qed.

(** Without collisions the hash stands for the line. *)
Lemma dedup_hash_collision_free seen ls :
  collision_free hasher ls →
  dedup_hash hasher seen ls =
  filter (λ x, hasher x ∉ seen) (first_occurrences ls).
Proof.
  revert seen. induction ls as [|l ls IH]; intros seen Hfree; simpl; [done|].
  assert (collision_free hasher ls) as Hfree'.
  { intros x y Hx Hy. apply Hfree; by right. }
  destruct (bool_decide_reflect (hasher l ∈ seen)) as [Hin|Hnin].
  - rewrite filter_cons_False by (by intros ?).
    rewrite IH by done. rewrite list_filter_filter.
    apply list_filter_iff. intros x. split; [|naive_solver].
    intros Hx. split; [done|]. by intros ->.
  - rewrite filter_cons_True by done. f_equal.
    rewrite IH by done. rewrite list_filter_filter.
    apply filter_iff_elem. intros x Hx.
    apply (proj1 (first_occurrences_elem _ _)) in Hx.
    split.
    + intros Hnew. split; [set_solver|]. intros ->. set_solver.
    + intros [Hnew Hne]. intros [Heq%elem_of_singleton|?]%elem_of_union; [|done].
      apply Hne, Hfree; [by right | by left | done].
Qed.

Lemma first_occurrences_length ls :
  length (first_occurrences ls) = size (list_to_set ls : gset string).
Proof.
  rewrite <- (size_list_to_set (C:=gset string) (first_occurrences ls))
    by apply first_occurrences_NoDup.
  f_equal. apply set_eq. intros x.
  by rewrite !elem_of_list_to_set, first_occurrences_elem.
Qed.

(** ** The interleaving loses and invents nothing *)

Lemma heads_tails_perm (lss : list (list string)) :
  (heads lss ++ concat (tails lss))%list ≡ₚ concat lss.
Proof.
  induction lss as [|[|l ls] lss IH]; rewrite ?tails_cons; simpl; [done..|].
  constructor. rewrite <- IH. by rewrite Permutation_app_swap_app.
Qed.

Lemma concat_max_len_0 (lss : list (list string)) :
  max_list (length <$> lss) = 0 → concat lss = [].
Proof.
  induction lss as [|ls lss IH]; [done|]. rewrite fmap_cons. simpl.
  intros H. destruct ls; simpl in *; [apply IH|]; lia.
Qed.

Lemma weave_rounds_perm n (lss : list (list string)) :
  max_list (length <$> lss) ≤ n → weave_rounds n lss ≡ₚ concat lss.
Proof.
  revert lss. induction n as [|n IH]; intros lss Hn; simpl.
  - by rewrite concat_max_len_0 by lia.
  - rewrite IH by (rewrite max_len_tails; lia). apply heads_tails_perm.
Qed.

Lemma weave_perm (lss : list (list string)) : weave lss ≡ₚ concat lss.
Proof. by apply weave_rounds_perm. Qed.

Lemma weave_singleton ls : weave [ls] = ls.
Proof.
  induction ls as [|l ls IH]; [done|].
  rewrite weave_unfold, tails_cons. cbn [heads tl app].
  change (tails []) with (@nil (list string)). by rewrite IH.
Qed.

(** ** The order of the output *)

(** C2: two files with the lines [a1; a2] and [b1; b2; b3], no two of
    them with the same hash, are merged into [a1; b1; a2; b2; b3]. For any
    files, the output is the deduplicated interleaving, which takes round
    after round the first remaining line of every file in file order; a
    file without lines left contributes nothing and the others go on. *)
Theorem weave_round_robin_order fs pA pB cA cB a1 a2 b1 b2 b3 out0 cerr0 :
  fs_open_read fs pA = Some cA →
  fs_open_read fs pB = Some cB →
  lines_of cA = [a1; a2] →
  lines_of cB = [b1; b2; b3] →
  NoDup (hasher <$> [a1; a2; b1; b2; b3]) →
  (∃ cerr, weaveMergeDedup hasher fs [pA; pB] out0 cerr0 =
             Some (out0 ++ unlines [a1; b1; a2; b2; b3], cerr)) ∧
  (∀ filePaths, ∃ cerr,
     weaveMergeDedup hasher fs filePaths out0 cerr0 =
       Some (out0 ++ unlines (dedup_hash hasher ∅
                                (weave (lines_of <$> opened fs filePaths))),
             cerr)) ∧
  (∀ lss, weave lss = (heads lss ++ weave (tails lss))%list).
Proof.
  intros HA HB HlA HlB Hnd.
  split; [|split; [intros filePaths; apply weaveMergeDedup_spec | apply weave_unfold]].
  destruct (weaveMergeDedup_spec fs [pA; pB] out0 cerr0) as [cerr ->].
  exists cerr. do 3 f_equal.
  unfold merge_lines, opened. cbn [omap list_omap]. rewrite HA, HB.
  cbn [fmap list_fmap]. rewrite HlA, HlB.
  rewrite !fmap_cons, !NoDup_cons, !not_elem_of_cons in Hnd.
  destruct_and!.
  change (weave [[a1; a2]; [b1; b2; b3]]) with [a1; b1; a2; b2; b3].
  cbn [dedup_hash]. repeat (fresh_hash; cbn [dedup_hash]). done.
Qed.

(** C3: the files [x; y] and [x; z] are merged into [x; y; z]. For any
    files, no line is written twice, a line is written only where it
    occurs first in the interleaving, and when no two different lines
    have the same hash every first occurrence is written. *)
Theorem weave_cross_file_dedup fs pA pB cA cB x y z out0 cerr0 :
  fs_open_read fs pA = Some cA →
  fs_open_read fs pB = Some cB →
  lines_of cA = [x; y] →
  lines_of cB = [x; z] →
  NoDup (hasher <$> [x; y; z]) →
  (∃ cerr, weaveMergeDedup hasher fs [pA; pB] out0 cerr0 =
             Some (out0 ++ unlines [x; y; z], cerr)) ∧
  (∀ filePaths, ∃ ls cerr,
     weaveMergeDedup hasher fs filePaths out0 cerr0 =
       Some (out0 ++ unlines ls, cerr) ∧
     NoDup ls ∧
     ls `sublist_of` first_occurrences (weave (lines_of <$> opened fs filePaths)) ∧
     (collision_free hasher (weave (lines_of <$> opened fs filePaths)) →
      ls = first_occurrences (weave (lines_of <$> opened fs filePaths)))).
Proof.
  intros HA HB HlA HlB Hnd. split.
  - destruct (weaveMergeDedup_spec fs [pA; pB] out0 cerr0) as [cerr ->].
    exists cerr. do 3 f_equal.
    unfold merge_lines, opened. cbn [omap list_omap]. rewrite HA, HB.
    cbn [fmap list_fmap]. rewrite HlA, HlB.
    rewrite !fmap_cons, !NoDup_cons, !not_elem_of_cons in Hnd.
    destruct_and!.
    change (weave [[x; y]; [x; z]]) with [x; x; y; z].
    cbn [dedup_hash]. fresh_hash. cbn [dedup_hash]. seen_hash.
    repeat (fresh_hash; cbn [dedup_hash]). done.
  - intros filePaths.
    destruct (weaveMergeDedup_spec fs filePaths out0 cerr0) as [cerr ->].
    exists (merge_lines hasher (opened fs filePaths)), cerr.
    split; [done|]. unfold merge_lines. split; [|split].
    + eapply NoDup_fmap_1, dedup_hash_NoDup.
    + apply dedup_hash_sublist.
    + intros Hfree. rewrite dedup_hash_collision_free by done.
      apply filter_all. intros x0. set_solver.
Qed.

Lemma dedup_hash_twice seen ls :
  dedup_hash hasher seen (weave [ls; ls]) = dedup_hash hasher seen ls.
Proof.
  revert seen. induction ls as [|l ls IH]; intros seen; [done|].
  rewrite weave_unfold, !tails_cons. cbn [heads tl app].
  change (tails []) with (@nil (list string)). cbn [dedup_hash].
  destruct (bool_decide_reflect (hasher l ∈ seen)) as [Hin|Hnin]; [apply IH|].
  seen_hash. f_equal. apply IH.
Qed.

(** C4: a file merged with itself gives the output of the file merged
    alone. *)
Theorem weave_twice_same_file fs path out0 cerr0 :
  ∃ out cerr1 cerr2,
    weaveMergeDedup hasher fs [path; path] out0 cerr0 = Some (out, cerr1) ∧
    weaveMergeDedup hasher fs [path] out0 cerr0 = Some (out, cerr2).
Proof.
  destruct (weaveMergeDedup_spec fs [path; path] out0 cerr0) as [cerr1 ->].
  destruct (weaveMergeDedup_spec fs [path] out0 cerr0) as [cerr2 ->].
  eexists _, cerr1, cerr2. split; [done|]. do 3 f_equal.
  unfold merge_lines, opened. cbn [omap list_omap].
  destruct (fs_open_read fs path) as [content|]; [|done].
  cbn [fmap list_fmap]. by rewrite dedup_hash_twice, weave_singleton.
Qed.

(** ** The set of hashes *)

Lemma dedup_hash_hashes seen ls :
  seen ∪ list_to_set (hasher <$> dedup_hash hasher seen ls) =
  seen ∪ list_to_set (hasher <$> ls).
Proof.
  revert seen. induction ls as [|l ls IH]; intros seen; simpl; [done|].
  destruct (bool_decide_reflect (hasher l ∈ seen)) as [Hin|Hnin].
  - rewrite IH. set_solver.
  - rewrite fmap_cons. simpl. specialize (IH ({[hasher l]} ∪ seen)). set_solver.
Qed.

Lemma dedup_hash_fresh seen ls l :
  l ∈ dedup_hash hasher seen ls → hasher l ∉ seen.
Proof. by intros [_ ?]%dedup_hash_elem. Qed.

(** C5: the set of hashes only grows, and it grows exactly by the hashes
    of the lines that are written: at one read (a line is written when its
    hash is not in the set, and then the hash is added; otherwise set and
    output stay as they are), over one round, and over all the rounds the
    loop makes from any state. The lines written have hashes that were not
    in the set before and that differ from each other. *)
Theorem written_only_grows :
  (∀ f st f' st',
     visit hasher f st = (f', st') →
     st' = st ∨
     ∃ line, anyAlive st' = true ∧
       ((hasher line ∈ written st ∧
         written st' = written st ∧ out st' = out st) ∨
        ((hasher line ∉ written st) ∧
         written st' = {[hasher line]} ∪ written st ∧
         out st' = out st ++ line ++ nl))) ∧
  (∀ files st files' st',
     round hasher files st = (files', st') →
     written st ⊆ written st' ∧
     ∃ ls, out st' = out st ++ unlines ls ∧
           written st' = written st ∪ list_to_set (hasher <$> ls) ∧
           NoDup (hasher <$> ls) ∧
           ∀ l, l ∈ ls → hasher l ∉ written st) ∧
  (∀ fuel w w',
     weave_loop hasher fuel w = Some w' →
     ws_written w ⊆ ws_written w' ∧
     ∃ ls, ws_out w' = ws_out w ++ unlines ls ∧
           ws_written w' = ws_written w ∪ list_to_set (hasher <$> ls) ∧
           NoDup (hasher <$> ls) ∧
           ∀ l, l ∈ ls → hasher l ∉ ws_written w).
Proof.
  split; [|split].
  - intros f st f' st' Hvisit.
    destruct (visit_spec f st) as (f1 & Hv & _). rewrite Hv in Hvisit.
    injection Hvisit as _ <-.
    destruct (stream_lines f) as [|line ls]; [by left|].
    right. exists line. unfold emit.
    destruct (bool_decide_reflect (hasher line ∈ written st)) as [Hin|Hnin];
      simpl; split; try done; [left | right]; done.
  - intros files st files' st' Hround.
    destruct (round_spec files st) as (files1 & Hr & _). rewrite Hr in Hround.
    injection Hround as _ <-.
    destruct (emit_fold (heads (stream_lines <$> files)) st) as (Hw & Ho & _).
    rewrite Hw, Ho. split; [set_solver|].
    eexists. split; [done|]. split; [by rewrite dedup_hash_hashes|].
    split; [apply dedup_hash_NoDup | apply dedup_hash_fresh].
  - intros fuel w w' (Ho & Hw)%weave_loop_sound.
    rewrite Hw, Ho. split; [set_solver|].
    eexists. split; [done|]. split; [by rewrite dedup_hash_hashes|].
    split; [apply dedup_hash_NoDup | apply dedup_hash_fresh].
Qed.

(** ** Lines and newlines *)

Lemma find_cons_None c d s :
  find c (String d s) = None ↔ d ≠ c ∧ find c s = None.
Proof.
  simpl. destruct (Ascii.eqb_spec d c) as [->|Hne]; [naive_solver|].
  destruct (find c s); naive_solver.
Qed.

Lemma lines_of_line l rest :
  find "010" l = None → lines_of (l ++ nl ++ rest) = l :: lines_of rest.
Proof.
  induction l as [|c l IH]; [done|].
  intros [Hc Hl]%find_cons_None. rewrite append_cons. simpl.
  apply Ascii.eqb_neq in Hc. rewrite Hc. by rewrite IH.
Qed.

Lemma lines_of_no_newline s : Forall (λ l, find "010" l = None) (lines_of s).
Proof.
  induction s as [|c s IH]; simpl; [constructor|].
  destruct (Ascii.eqb_spec c "010") as [->|Hc]; [by constructor|].
  destruct (lines_of s) as [|l ls].
  - repeat constructor. by apply find_cons_None.
  - apply Forall_cons in IH as [Hl Hls]. constructor; [|done].
    by apply find_cons_None.
Qed.

Lemma lines_of_unlines ls :
  Forall (λ l, find "010" l = None) ls → lines_of (unlines ls) = ls.
Proof.
  induction 1 as [|l ls Hl Hls IH]; [done|].
  simpl. by rewrite lines_of_line, IH.
Qed.

Lemma lines_of_terminate_last_line s :
  lines_of (terminate_last_line s) = lines_of s.
Proof.
  unfold terminate_last_line.
  destruct (String.eqb_spec s "") as [->|Hne]; [done|]. simpl.
  destruct (ends_with_newline s) eqn:Hend; [done|].
  induction s as [|c s IH]; [done|]. rewrite append_cons.
  destruct s as [|d s].
  - simpl in *. by rewrite Hend.
  - cbn [lines_of]. rewrite IH; [done | done | done].
Qed.

Lemma elem_of_concat (x : string) (lss : list (list string)) :
  x ∈ concat lss ↔ ∃ ls, ls ∈ lss ∧ x ∈ ls.
Proof.
  rewrite list_elem_of_In, in_concat.
  by setoid_rewrite list_elem_of_In.
Qed.

Lemma merge_lines_no_newline contents :
  Forall (λ l, find "010" l = None) (merge_lines hasher contents).
Proof.
  apply Forall_forall. intros l [Hl _]%dedup_hash_elem.
  rewrite weave_perm in Hl.
  apply elem_of_concat in Hl as (ls & Hls & Hl).
  apply list_elem_of_fmap in Hls as (c & -> & _).
  by eapply Forall_forall in Hl; [|apply lines_of_no_newline].
Qed.

(** ** Counting lines *)

Lemma weaveMergeDedup_ext fs fs' filePaths out0 cerr0 :
  (∀ p, p ∈ filePaths → fs_open_read fs' p = fs_open_read fs p) →
  weaveMergeDedup hasher fs' filePaths out0 cerr0 =
  weaveMergeDedup hasher fs filePaths out0 cerr0.
Proof.
  intros Hext. unfold weaveMergeDedup.
  assert (∀ files cerr, open_files fs' filePaths files cerr =
                        open_files fs filePaths files cerr) as ->; [|done].
  induction filePaths as [|p filePaths IH]; intros files cerr; [done|].
  cbn [open_files]. rewrite Hext by (by left).
  destruct (fs_open_read fs p); apply IH; intros q Hq; apply Hext; by right.
Qed.

(** C7, amended: when no two different lines of the files have the same
    hash, the output has as many lines as there are different lines in the
    files, each ended by a newline; and the run depends on nothing but the
    paths, in their order, and the bytes of the files they name. (Lines
    are told apart by their hashes only.) *)
Theorem merge_line_count_and_determinism fs filePaths cerr0 :
  collision_free hasher (concat (lines_of <$> opened fs filePaths)) →
  (∃ out cerr,
     weaveMergeDedup hasher fs filePaths "" cerr0 = Some (out, cerr) ∧
     out = unlines (lines_of out) ∧
     length (lines_of out) =
       size (list_to_set (concat (lines_of <$> opened fs filePaths)) : gset string)) ∧
  (∀ fs' out0,
     (∀ p, p ∈ filePaths → fs_open_read fs' p = fs_open_read fs p) →
     weaveMergeDedup hasher fs' filePaths out0 cerr0 =
     weaveMergeDedup hasher fs filePaths out0 cerr0).
Proof.
  intros Hfree. split; [|intros fs' out0; apply weaveMergeDedup_ext].
  destruct (weaveMergeDedup_spec fs filePaths "" cerr0) as [cerr ->].
  eexists _, cerr. split; [done|]. rewrite append_nil_l.
  rewrite lines_of_unlines by apply merge_lines_no_newline.
  split; [done|]. unfold merge_lines.
  rewrite dedup_hash_collision_free.
  - rewrite filter_all by set_solver. rewrite first_occurrences_length.
    f_equal. apply set_eq. intros x.
    by rewrite !elem_of_list_to_set, weave_perm.
  - intros x y Hx Hy. rewrite weave_perm in Hx, Hy. by apply Hfree.
Qed.

(** ** The last line of a file *)

Lemma opened_terminate_last_line fs fs' filePaths :
  (∀ p, fs_open_read fs' p = terminate_last_line <$> fs_open_read fs p) →
  lines_of <$> opened fs' filePaths = lines_of <$> opened fs filePaths.
Proof.
  intros Hfs. unfold opened.
  induction filePaths as [|p filePaths IH]; [done|].
  cbn [omap list_omap]. rewrite Hfs.
  destruct (fs_open_read fs p) as [c|]; cbn [fmap option_fmap option_map];
    [|apply IH].
  rewrite !fmap_cons. f_equal; [apply lines_of_terminate_last_line | apply IH].
Qed.

Lemma lines_of_cons c s :
  lines_of (String c s) =
  if Ascii.eqb c "010" then "" :: lines_of s
  else match lines_of s with
       | [] => [String c ""]
       | l :: ls => String c l :: ls
       end.
Proof. reflexivity. Qed.

Lemma lines_of_nonempty c s : lines_of (String c s) ≠ [].
Proof.
  rewrite lines_of_cons. destruct (Ascii.eqb c "010"); [done|].
  by destruct (lines_of s).
Qed.

(** After a terminated line the lines of what follows are counted on their
    own. *)
Lemma lines_of_app_terminated pre s :
  ends_with_newline pre = true →
  lines_of (pre ++ s) = (lines_of pre ++ lines_of s)%list.
Proof.
  induction pre as [|c pre IH]; [done|]. intros Hend.
  rewrite append_cons. destruct pre as [|d pre].
  - cbn [ends_with_newline] in Hend. rewrite append_nil_l.
    rewrite !lines_of_cons, Hend. reflexivity.
  - change (ends_with_newline (String c (String d pre)))
      with (ends_with_newline (String d pre)) in Hend.
    specialize (IH Hend).
    rewrite (lines_of_cons c (String d pre ++ s)), (lines_of_cons c (String d pre)), IH.
    destruct (Ascii.eqb c "010"); [done|].
    destruct (lines_of (String d pre)) as [|l ls] eqn:Hl; [|done].
    by apply lines_of_nonempty in Hl.
Qed.

Lemma read_line_last last : find "010" last = None → read_line last = (last, None).
Proof.
  induction last as [|c l IH]; [done|].
  intros [Hc Hl]%find_cons_None. simpl.
  apply Ascii.eqb_neq in Hc. rewrite Hc. by rewrite IH.
Qed.

(** A file that ends in a line without a newline: that line is its last
    line. *)
Lemma lines_of_unterminated pre last :
  pre = "" ∨ ends_with_newline pre = true →
  last ≠ "" → find "010" last = None →
  lines_of (pre ++ last) = (lines_of pre ++ [last])%list.
Proof.
  intros Hpre Hne Hfind.
  assert (lines_of last = [last]) as Hlast.
  { pose proof (read_line_spec last) as H. rewrite read_line_last in H by done.
    destruct H as [_ ->]. by apply String.eqb_neq in Hne as ->. }
  destruct Hpre as [->|Hend].
  - by rewrite append_nil_l.
  - by rewrite lines_of_app_terminated, Hlast.
Qed.

(** C10: a last line that no newline ends is read like any other: the
    read succeeds and sets only [eofbit], the line is hashed and, when the
    hash is new, written with a newline after it; the stream is skipped
    from then on. A run on one file that ends in such a line writes the
    lines before it and then, unless a line before it has its hash, the
    line and one newline. A run on any files of which one ends in such a
    line writes a line with its hash, and the line itself when no other
    line of the files has that hash. A run on files whose last line lacks
    the newline writes what it writes when the newline is there. *)
Theorem last_line_without_newline f st last :
  good f = true →
  buf f = last →
  last ≠ "" →
  find "010" last = None →
  (∃ f',
     visit hasher f st =
       (f', MergeState
              ({[hasher last]} ∪ written st)
              (if bool_decide (hasher last ∈ written st)
               then out st else out st ++ last ++ nl)
              true) ∧
     eofbit f' = true ∧ failbit f' = false ∧ good f' = false ∧
     ∀ st', visit hasher f' st' = (f', st')) ∧
  (∀ fs path pre out0 cerr0,
     fs_open_read fs path = Some (pre ++ last) →
     pre = "" ∨ ends_with_newline pre = true →
     ∃ cerr,
       weaveMergeDedup hasher fs [path] out0 cerr0 =
         Some (out0 ++ unlines (dedup_hash hasher ∅ (lines_of pre)) ++
               (if bool_decide
                     (hasher last ∈ (list_to_set (hasher <$> lines_of pre) : gset Z))
                then "" else last ++ nl),
               cerr)) ∧
  (∀ fs filePaths path pre out0 cerr0,
     path ∈ filePaths →
     fs_open_read fs path = Some (pre ++ last) →
     pre = "" ∨ ends_with_newline pre = true →
     ∃ ls cerr,
       weaveMergeDedup hasher fs filePaths out0 cerr0 = Some (out0 ++ unlines ls, cerr) ∧
       lines_of (unlines ls) = ls ∧
       (∃ l', l' ∈ ls ∧ hasher l' = hasher last) ∧
       ((∀ l, l ∈ concat (lines_of <$> opened fs filePaths) →
              hasher l = hasher last → l = last) →
        last ∈ ls)) ∧
  (∀ fs fs' filePaths out0 cerr0,
     (∀ p, fs_open_read fs' p = terminate_last_line <$> fs_open_read fs p) →
     ∃ out cerr cerr',
       weaveMergeDedup hasher fs filePaths out0 cerr0 = Some (out, cerr) ∧
       weaveMergeDedup hasher fs' filePaths out0 cerr0 = Some (out, cerr')).
Proof.
  intros Hgood Hbuf Hne Hfind. split; [|split; [|split]].
  - unfold visit, getline. rewrite Hgood. cbn [negb].
    rewrite Hbuf, read_line_last by done.
    assert (String.eqb last "" = false) as -> by (by apply String.eqb_neq).
    cbn [failbit negb].
    assert (written st = {[hasher last]} ∪ written st ∨
            bool_decide (hasher last ∈ written st) = false) as [Heq|Hnew].
    { destruct (bool_decide_reflect (hasher last ∈ written st)); [left | by right].
      set_solver. }
    + rewrite <- Heq.
      destruct (bool_decide (hasher last ∈ written st));
        (eexists; split; [reflexivity|]; by repeat split).
    + rewrite Hnew. eexists. split; [reflexivity|]. by repeat split.
  - intros fs path pre out0 cerr0 Hopen Hpre.
    destruct (weaveMergeDedup_spec fs [path] out0 cerr0) as [cerr ->].
    exists cerr. unfold opened. cbn [omap list_omap]. rewrite Hopen.
    unfold merge_lines. cbn [fmap list_fmap].
    rewrite weave_singleton, lines_of_unterminated by done.
    rewrite dedup_hash_app, unlines_app, (left_id_L ∅ (∪)).
    cbn [dedup_hash].
    destruct (bool_decide (hasher last ∈ list_to_set (hasher <$> lines_of pre)));
      [done|].
    cbn [unlines]. by rewrite append_nil_r.
  - intros fs filePaths path pre out0 cerr0 Hpath Hopen Hpre.
    destruct (weaveMergeDedup_spec fs filePaths out0 cerr0) as [cerr ->].
    eexists _, cerr. split; [done|].
    split; [apply lines_of_unlines, merge_lines_no_newline|].
    assert (last ∈ weave (lines_of <$> opened fs filePaths)) as Hlast.
    { rewrite weave_perm. apply elem_of_concat. exists (lines_of (pre ++ last)). split.
      - apply list_elem_of_fmap. exists (pre ++ last). split; [done|].
        apply list_elem_of_omap. eauto.
      - rewrite lines_of_unterminated by done. apply elem_of_app. right. by left. }
    assert (∃ l', l' ∈ merge_lines hasher (opened fs filePaths) ∧
                  hasher l' = hasher last) as (l' & Hl' & Heq).
    { pose proof (dedup_hash_hashes ∅ (weave (lines_of <$> opened fs filePaths))) as H.
      rewrite !(left_id_L ∅ (∪)) in H.
      assert (hasher last ∈
                (list_to_set (hasher <$> weave (lines_of <$> opened fs filePaths))
                   : gset Z)) as Hin.
      { apply elem_of_list_to_set, list_elem_of_fmap. eauto. }
      rewrite <- H in Hin.
      apply elem_of_list_to_set, list_elem_of_fmap in Hin as (l' & Heq & Hl').
      eauto. }
    split; [eauto|]. intros Honly.
    assert (l' = last) as <-; [|done].
    apply Honly; [|done].
    apply dedup_hash_elem in Hl' as [Hl' _]. by rewrite weave_perm in Hl'.
  - intros fs fs' filePaths out0 cerr0 Hfs.
    destruct (weaveMergeDedup_spec fs filePaths out0 cerr0) as [cerr ->].
    destruct (weaveMergeDedup_spec fs' filePaths out0 cerr0) as [cerr' ->].
    eexists _, cerr, cerr'. split; [done|].
    unfold merge_lines. by rewrite (opened_terminate_last_line fs fs').
Qed.

End WeaveProofs.

(** ** Examples for the merge *)

Lemma weave_round_robin_order_witness :
  (∃ cerr, weaveMergeDedup fnv1a ex_fs ["A"; "B"] "" "" =
             Some ("" ++ unlines ["a1"; "b1"; "a2"; "b2"; "b3"], cerr)) ∧
  (∃ cerr, weaveMergeDedup fnv1a_32 ex_fs ["A"; "B"] "" "" =
             Some ("" ++ unlines ["a1"; "b1"; "a2"; "b2"; "b3"], cerr)).
Proof.
  split.
  - eapply proj1, (weave_round_robin_order fnv1a ex_fs "A" "B" ex_A ex_B).
    + reflexivity.
    + reflexivity.
    + reflexivity.
    + reflexivity.
    + refine (bool_decide_unpack _ _). vm_compute. exact I.
  - eapply proj1, (weave_round_robin_order fnv1a_32 ex_fs "A" "B" ex_A ex_B).
    + reflexivity.
    + reflexivity.
    + reflexivity.
    + reflexivity.
    + refine (bool_decide_unpack _ _). vm_compute. exact I.
Defined.

Lemma weave_cross_file_dedup_witness :
  (∃ cerr, weaveMergeDedup fnv1a ex_fs ["X"; "Y"] "" "" =
             Some ("" ++ unlines ["x"; "y"; "z"], cerr)) ∧
  (∃ cerr, weaveMergeDedup fnv1a_32 ex_fs ["X"; "Y"] "" "" =
             Some ("" ++ unlines ["x"; "y"; "z"], cerr)).
Proof.
  split.
  - eapply proj1, (weave_cross_file_dedup fnv1a ex_fs "X" "Y" ex_X ex_Y).
    + reflexivity.
    + reflexivity.
    + reflexivity.
    + reflexivity.
    + refine (bool_decide_unpack _ _). vm_compute. exact I.
  - eapply proj1, (weave_cross_file_dedup fnv1a_32 ex_fs "X" "Y" ex_X ex_Y).
    + reflexivity.
    + reflexivity.
    + reflexivity.
    + reflexivity.
    + refine (bool_decide_unpack _ _). vm_compute. exact I.
Defined.

Lemma collision_free_NoDup hasher ls :
  NoDup (hasher <$> remove_dups ls) → collision_free hasher ls.
Proof.
  intros Hnd x y Hx Hy Heq.
  apply elem_of_remove_dups, list_elem_of_lookup in Hx as [i Hi].
  apply elem_of_remove_dups, list_elem_of_lookup in Hy as [j Hj].
  assert (i = j) as ->.
  { eapply NoDup_lookup; [done| |]; rewrite list_lookup_fmap.
    - by rewrite Hi.
    - rewrite Hj. simpl. by rewrite Heq. }
  congruence.
Qed.

(** C7, as it is stated, fails where two different lines have the same
    hash: with 32-bit FNV-1a the lines [costarring] and [liquid] of one
    file are two different lines, and only the first is written. *)
Lemma merge_line_count_collision :
  fnv1a_32 "costarring" = fnv1a_32 "liquid" ∧
  ∃ cerr,
    weaveMergeDedup fnv1a_32 ex_fs_collision ["W"] "" "" =
      Some (unlines ["costarring"], cerr) ∧
    length (lines_of (unlines ["costarring"])) = 1 ∧
    size (list_to_set (concat (lines_of <$> opened ex_fs_collision ["W"]))
            : gset string) = 2.
Proof.
  split; [reflexivity|].
  destruct (weaveMergeDedup_spec fnv1a_32 ex_fs_collision ["W"] "" "") as [cerr H].
  exists cerr. split; [|split].
  - rewrite H. reflexivity.
  - reflexivity.
  - reflexivity.
Qed.

Lemma merge_line_count_and_determinism_witness :
  ∃ out cerr,
    weaveMergeDedup fnv1a ex_fs ["A"; "X"; "locked.txt"; "Y"; "A"] "" "" =
      Some (out, cerr) ∧
    out = unlines (lines_of out) ∧
    length (lines_of out) = 5.
Proof.
  eapply proj1,
    (merge_line_count_and_determinism fnv1a ex_fs
       ["A"; "X"; "locked.txt"; "Y"; "A"] "").
  apply collision_free_NoDup. refine (bool_decide_unpack _ _). vm_compute. exact I.
Defined.

Lemma written_only_grows_witness :
  let st := MergeState {[fnv1a "x"]} ("x" ++ nl) false in
  ∃ files' st',
    round fnv1a [open_stream ex_Y; open_stream ex_A] st = (files', st') ∧
    written st ⊆ written st' ∧
    ∃ ls, out st' = out st ++ unlines ls ∧
          written st' = written st ∪ list_to_set (fnv1a <$> ls) ∧
          NoDup (fnv1a <$> ls) ∧
          ∀ l, l ∈ ls → fnv1a l ∉ written st.
Proof.
  intros st.
  destruct (round fnv1a [open_stream ex_Y; open_stream ex_A] st)
    as [files' st'] eqn:Hround.
  exists files', st'. split; [reflexivity|].
  destruct (written_only_grows fnv1a) as (_ & Hr & _).
  exact (Hr _ _ _ _ Hround).
Defined.

Lemma last_line_without_newline_witness :
  let st := MergeState ∅ "" false in
  (∃ f', visit fnv1a (open_stream "a2") st =
           (f', MergeState
                  ({[fnv1a "a2"]} ∪ written st)
                  (if bool_decide (fnv1a "a2" ∈ written st)
                   then out st else out st ++ "a2" ++ nl)
                  true) ∧
         eofbit f' = true ∧ failbit f' = false ∧ good f' = false ∧
         ∀ st', visit fnv1a f' st' = (f', st')) ∧
  (∃ cerr, weaveMergeDedup fnv1a ex_fs ["A"] "" "" =
             Some ("a1" ++ nl ++ "a2" ++ nl, cerr)) ∧
  (∃ ls cerr,
     weaveMergeDedup fnv1a ex_fs ["X"; "A"; "B"] "" "" = Some ("" ++ unlines ls, cerr) ∧
     lines_of (unlines ls) = ls ∧ "a2" ∈ ls) ∧
  (∃ out cerr cerr',
     weaveMergeDedup fnv1a ex_fs ["A"; "Y"] "" "" = Some (out, cerr) ∧
     weaveMergeDedup fnv1a ex_fs_terminated ["A"; "Y"] "" "" = Some (out, cerr')).
Proof.
  intros st.
  assert ("a2" ≠ "") as Hne by discriminate.
  destruct (last_line_without_newline fnv1a (open_stream "a2") st "a2"
              eq_refl eq_refl Hne eq_refl) as (Hvisit & Hone & Hmany & Hrun).
  split; [exact Hvisit|]. split; [|split].
  - destruct (Hone ex_fs "A" ("a1" ++ nl) "" "" eq_refl (or_intror eq_refl))
      as [cerr Hcerr].
    exists cerr. rewrite Hcerr. reflexivity.
  - destruct (Hmany ex_fs ["X"; "A"; "B"] "A" ("a1" ++ nl) "" "")
      as (ls & cerr & Hls & Hlines & _ & Hin).
    + apply list_elem_of_further, list_elem_of_here.
    + reflexivity.
    + right. reflexivity.
    + exists ls, cerr. split; [exact Hls|]. split; [exact Hlines|]. apply Hin.
      intros l Hl Hhash.
      assert (Forall (λ l, fnv1a l = fnv1a "a2" → l = "a2")
                (concat (lines_of <$> opened ex_fs ["X"; "A"; "B"]))) as Hall.
      { repeat constructor; vm_compute; congruence. }
      rewrite Forall_forall in Hall. by apply Hall.
  - apply (Hrun ex_fs ex_fs_terminated). intros p. reflexivity.
Defined.

(** ** expandFilePaths *)

Lemma expand_loop_app fs ps1 ps2 result cerr :
  expand_loop fs (ps1 ++ ps2) result cerr =
  match expand_loop fs ps1 result cerr with
  | (Returned result1, cerr1) => expand_loop fs ps2 result1 cerr1
  | (Thrown what, cerr1) => (Thrown what, cerr1)
  end.
Proof.
  revert result cerr. induction ps1 as [|p ps1 IH]; intros result cerr; [done|].
  rewrite <- app_comm_cons. cbn [expand_loop].
  destruct (has_wildcard p).
  - destruct (expand_wildcard fs p result cerr) as [result' cerr']. apply IH.
  - destruct (expand_literal fs p result cerr) as [[result'|what] cerr']; [apply IH | done].
Qed.

Lemma fs_regular_exists t :
  fs_exists t && fs_is_regular_file t = fs_is_regular_file t.
Proof. by destruct t. Qed.

(** The wildcard branch never lets an exception escape. *)
Lemma expand_loop_returns fs patterns result cerr :
  (∀ p, p ∈ patterns → has_wildcard p = false → ∃ t, fs_status fs p = FsOk t) →
  ∃ result' cerr', expand_loop fs patterns result cerr = (Returned result', cerr').
Proof.
  revert result cerr. induction patterns as [|p patterns IH];
    intros result cerr Hok; [by eexists _, _|].
  cbn [expand_loop]. destruct (has_wildcard p) eqn:Hw.
  - destruct (expand_wildcard fs p result cerr) as [result' cerr'].
    apply IH. intros q Hq. apply Hok. by right.
  - destruct (Hok p) as [t Ht]; [by left | done|].
    unfold expand_literal. rewrite Ht.
    destruct (fs_exists t && fs_is_regular_file t);
      apply IH; intros q Hq; apply Hok; by right.
Qed.

(** C8 (the code departs from it): a pattern without [*] and [?] adds
    itself to the list when it names a regular file, and adds a warning and
    nothing else when the status query says the file is missing or is no
    regular file: alone, and after any patterns that were expanded before
    it. When the status query itself fails, the pattern is neither added
    nor skipped with a warning: the exception leaves the expansion, and
    the patterns after it are never looked at. The wildcard branch catches
    the same failure and goes on with a warning. The expansion returns
    when the status of every pattern without wildcards can be read;
    missing files and directories never make it throw. *)
Theorem literal_pattern_expansion fs pattern :
  has_wildcard pattern = false →
  let warning :=
    "Warning: File not found or not a regular file: " ++ pattern ++ nl in
  (∀ cerr,
     expandFilePaths fs [pattern] cerr =
       match fs_status fs pattern with
       | FsOk t =>
           if fs_is_regular_file t
           then (Returned [pattern], cerr)
           else (Returned [], cerr ++ warning)
       | FsError what => (Thrown what, cerr)
       end) ∧
  (∀ before after cerr result1 cerr1,
     expandFilePaths fs before cerr = (Returned result1, cerr1) →
     expandFilePaths fs (before ++ pattern :: after) cerr =
       match fs_status fs pattern with
       | FsOk t =>
           if fs_is_regular_file t
           then expand_loop fs after (result1 ++ [pattern])%list cerr1
           else expand_loop fs after result1 (cerr1 ++ warning)
       | FsError what => (Thrown what, cerr1)
       end) ∧
  (∀ wildcards what after cerr,
     has_wildcard wildcards = true →
     fs_status fs (wildcard_dir fs wildcards) = FsError what →
     expandFilePaths fs (wildcards :: after) cerr =
       expand_loop fs after [] (cerr ++ warn_pattern_error wildcards what)) ∧
  (∀ patterns cerr,
     (∀ p, p ∈ patterns → has_wildcard p = false → ∃ t', fs_status fs p = FsOk t') →
     ∃ result cerr', expandFilePaths fs patterns cerr = (Returned result, cerr')).
Proof.
  intros Hw warning.
  assert (∀ result cerr after,
            expand_loop fs (pattern :: after) result cerr =
            match fs_status fs pattern with
            | FsOk t =>
                if fs_is_regular_file t
                then expand_loop fs after (result ++ [pattern])%list cerr
                else expand_loop fs after result (cerr ++ warning)
            | FsError what => (Thrown what, cerr)
            end) as Hstep.
  { intros result cerr after. cbn [expand_loop]. rewrite Hw.
    unfold expand_literal. destruct (fs_status fs pattern) as [t|what]; [|done].
    rewrite fs_regular_exists. by destruct (fs_is_regular_file t). }
  split; [|split; [|split]].
  - intros cerr. unfold expandFilePaths. rewrite Hstep.
    destruct (fs_status fs pattern) as [t|what]; [|done].
    by destruct (fs_is_regular_file t).
  - intros before after cerr result1 cerr1 Hbefore.
    unfold expandFilePaths in *. by rewrite expand_loop_app, Hbefore, Hstep.
  - intros wildcards what after cerr Hwild Hdir.
    unfold expandFilePaths. cbn [expand_loop]. rewrite Hwild.
    unfold expand_wildcard. fold (wildcard_dir fs wildcards). by rewrite Hdir.
  - intros patterns cerr. apply expand_loop_returns.
Qed.

Lemma literal_pattern_expansion_witness :
  expandFilePaths ex_fs ["A"] "" = (Returned ["A"], "") ∧
  expandFilePaths ex_fs ["missing.txt"] "" =
    (Returned [],
     "" ++ "Warning: File not found or not a regular file: " ++ "missing.txt" ++ nl) ∧
  expandFilePaths ex_fs_denied ["denied/list.txt"] "" =
    (Thrown "status: Permission denied", "") ∧
  expandFilePaths ex_fs_denied ["A"; "denied/list.txt"; "B"] "" =
    (Thrown "status: Permission denied", "") ∧
  expandFilePaths ex_fs_denied ["denied/list.txt/*"; "B"] "" =
    (Returned ["B"],
     "" ++ warn_pattern_error "denied/list.txt/*" "status: Permission denied").
Proof.
  assert (has_wildcard "A" = false) as HA by reflexivity.
  assert (has_wildcard "missing.txt" = false) as Hmissing by reflexivity.
  assert (has_wildcard "denied/list.txt" = false) as Hdenied by reflexivity.
  pose proof (literal_pattern_expansion ex_fs "A" HA) as H1.
  pose proof (literal_pattern_expansion ex_fs "missing.txt" Hmissing) as H2.
  pose proof (literal_pattern_expansion ex_fs_denied "denied/list.txt" Hdenied) as H3.
  cbv zeta in H1, H2, H3.
  destruct H1 as [H1 _], H2 as [H2 _], H3 as (H3 & H4 & H5 & _).
  split; [exact (H1 "")|]. split; [exact (H2 "")|]. split; [exact (H3 "")|].
  split.
  - exact (H4 ["A"] ["B"] "" ["A"] "" eq_refl).
  - rewrite (H5 "denied/list.txt/*" "status: Permission denied" ["B"] ""
               eq_refl eq_refl).
    reflexivity.
Defined.

(** Wildcard patterns: the entries of the directory that match, in the
    order of the iteration; a missing directory gives a warning. *)
Example expandFilePaths_wildcards :
  expandFilePaths ex_fs ["*.txt"; "nodir/*"; "?"] "" =
    (Returned ["./locked.txt"; "./A"; "./B"; "./X"; "./Y"],
     "Warning: Directory not found for pattern: nodir/*" ++ nl).
Proof. reflexivity. Qed.

(** ** The arguments of main *)

Lemma parse_args_flag flag value rest outputFile filePatterns :
  flag = "-o" ∨ flag = "--output" →
  parse_args (flag :: value :: rest) outputFile filePatterns =
  parse_args rest value filePatterns.
Proof. by intros [-> | ->]. Qed.

Lemma parse_args_pattern arg rest outputFile filePatterns :
  arg ≠ "-o" → arg ≠ "--output" →
  parse_args (arg :: rest) outputFile filePatterns =
  parse_args rest outputFile (filePatterns ++ [arg])%list.
Proof.
  intros H1%String.eqb_neq H2%String.eqb_neq. cbn [parse_args].
  by rewrite H1, H2.
Qed.

Lemma parse_args_patterns args outputFile filePatterns :
  "-o" ∉ args → "--output" ∉ args →
  parse_args args outputFile filePatterns =
  Some (outputFile, (filePatterns ++ args)%list).
Proof.
  revert filePatterns. induction args as [|arg args IH]; intros filePatterns H1 H2.
  { by rewrite app_nil_r. }
  apply not_elem_of_cons in H1 as [? ?], H2 as [? ?].
  rewrite parse_args_pattern, IH by done. by rewrite <- app_assoc.
Qed.

Lemma parse_args_app n before rest outputFile filePatterns outputFile1 filePatterns1 :
  length before ≤ n →
  parse_args before outputFile filePatterns = Some (outputFile1, filePatterns1) →
  parse_args (before ++ rest) outputFile filePatterns =
  parse_args rest outputFile1 filePatterns1.
Proof.
  revert before outputFile filePatterns.
  induction n as [|n IH]; intros before outputFile filePatterns Hn.
  { destruct before; [|simpl in Hn; lia]. by intros [= -> ->]. }
  destruct before as [|arg before]; [by intros [= -> ->]|].
  rewrite <- app_comm_cons. cbn [parse_args].
  destruct (String.eqb arg "-o" || String.eqb arg "--output").
  - destruct before as [|value before]; [done|].
    rewrite <- app_comm_cons. apply IH. simpl in Hn. lia.
  - apply IH. simpl in Hn. lia.
Qed.

(** C9: an argument that is neither ["-o"] nor ["--output"] becomes a
    pattern, whatever it looks like; the flag takes the argument after it
    as the output path, whatever it looks like; of several flags the last
    one decides. *)
Theorem parse_args_output_flag :
  (∀ arg rest outputFile filePatterns,
     arg ≠ "-o" → arg ≠ "--output" →
     parse_args (arg :: rest) outputFile filePatterns =
     parse_args rest outputFile (filePatterns ++ [arg])%list) ∧
  (∀ flag value rest outputFile filePatterns,
     flag = "-o" ∨ flag = "--output" →
     parse_args (flag :: value :: rest) outputFile filePatterns =
     parse_args rest value filePatterns) ∧
  (∀ before flag value after outputFile filePatterns outputFile1 filePatterns1,
     flag = "-o" ∨ flag = "--output" →
     parse_args before outputFile filePatterns = Some (outputFile1, filePatterns1) →
     "-o" ∉ after → "--output" ∉ after →
     parse_args (before ++ flag :: value :: after) outputFile filePatterns =
     Some (value, (filePatterns1 ++ after)%list)) ∧
  parse_args ["--help"] "merged.txt" [] = Some ("merged.txt", ["--help"]) ∧
  parse_args ["a"; "-o"; "x"; "-b"; "--output"; "-o"; "*.txt"] "merged.txt" [] =
    Some ("-o", ["a"; "-b"; "*.txt"]) ∧
  main fnv1a ex_fs ["merge"; "--help"] =
    RunResult (Exited 1)
      ("Expanding file patterns..." ++ nl ++
       "Warning: File not found or not a regular file: --help" ++ nl ++
       "Error: No valid input files found" ++ nl)
      None ∧
  run_output (main fnv1a ex_fs ["merge"; "-o"; "first.txt"; "A"; "--output"; "B"; "X"]) =
    Some ("B", unlines ["a1"; "x"; "a2"; "y"]).
Proof.
  split; [apply parse_args_pattern|].
  split; [apply parse_args_flag|].
  split; [|by vm_compute].
  intros before flag value after o ps o1 ps1 Hflag Hbefore H1 H2.
  rewrite (parse_args_app (length before) _ _ _ _ _ _ (le_n _) Hbefore).
  rewrite parse_args_flag by done. by apply parse_args_patterns.
Qed.

Lemma parse_args_output_flag_witness :
  parse_args (["a"; "-o"; "x"] ++ "--output" :: "-o" :: ["--help"]) "merged.txt" [] =
    Some ("-o", (["a"] ++ ["--help"])%list).
Proof.
  destruct parse_args_output_flag as (_ & _ & H & _).
  apply (H ["a"; "-o"; "x"] "--output" "-o" ["--help"] "merged.txt" [] "x" ["a"]).
  - by right.
  - reflexivity.
  - refine (bool_decide_unpack _ _). vm_compute. exact I.
  - refine (bool_decide_unpack _ _). vm_compute. exact I.
Defined.

(** ** main *)

Lemma weaveMergeDedup_returns hasher fs filePaths out0 cerr0 :
  is_Some (weaveMergeDedup hasher fs filePaths out0 cerr0).
Proof. by destruct (weaveMergeDedup_spec hasher fs filePaths out0 cerr0) as [cerr ->]. Qed.

Lemma main_terminates hasher fs argv : run_exit (main hasher fs argv) ≠ Diverged.
Proof.
  unfold main.
  repeat match goal with
  | |- context [weaveMergeDedup ?h ?f ?p ?o ?c] =>
      destruct (weaveMergeDedup_returns h f p o c) as [[? ?] ->]
  | |- context [match ?x with _ => _ end] => destruct x eqn:?
  end; done.
Qed.

(** C1, what the code does: when none of the resolved files opens, the
    merge reports the error and writes nothing, the output file has been
    created and stays empty, and [main] goes on to report success and
    returns 0. *)
Theorem main_exit_code_when_nothing_opens hasher fs argv outputFile filePatterns
    filePaths cerr1 :
  2 ≤ length argv →
  parse_args (tl argv) "merged.txt" [] = Some (outputFile, filePatterns) →
  expandFilePaths fs filePatterns ("Expanding file patterns..." ++ nl) =
    (Returned filePaths, cerr1) →
  filePaths ≠ [] →
  fs_open_write fs outputFile = true →
  opened fs filePaths = [] →
  run_exit (main hasher fs argv) = Exited 0 ∧
  run_output (main hasher fs argv) = Some (outputFile, "") ∧
  ∃ cerr, run_cerr (main hasher fs argv) =
            (cerr ++ "Error: No files could be opened for weave-merge" ++ nl) ++
            "Output written to: " ++ outputFile ++ nl.
Proof.
  intros Hargc Hparse Hexpand Hpaths Hout Hopen. unfold main.
  destruct (Nat.ltb_spec (length argv) 2) as [?|_]; [lia|].
  rewrite Hparse.
  destruct filePatterns as [|pattern filePatterns].
  { unfold expandFilePaths in Hexpand. simpl in Hexpand. congruence. }
  rewrite Hexpand. destruct filePaths as [|path filePaths]; [done|].
  rewrite Hout. cbn [negb].
  rewrite weaveMergeDedup_none_opened by done.
  cbn [run_exit run_output run_cerr]. split; [done|]. split; [done|].
  eexists. reflexivity.
Qed.

Lemma main_exit_code_when_nothing_opens_witness :
  run_exit (main fnv1a ex_fs ["merge"; "locked.txt"]) = Exited 0 ∧
  run_output (main fnv1a ex_fs ["merge"; "locked.txt"]) = Some ("merged.txt", "").
Proof.
  assert (expandFilePaths ex_fs ["locked.txt"] ("Expanding file patterns..." ++ nl) =
          (Returned ["locked.txt"], "Expanding file patterns..." ++ nl)) as Hexpand
    by reflexivity.
  assert (2 ≤ length ["merge"; "locked.txt"]) as Hargc by (simpl; lia).
  assert (["locked.txt"] ≠ []) as Hne by discriminate.
  destruct (main_exit_code_when_nothing_opens fnv1a ex_fs ["merge"; "locked.txt"]
              "merged.txt" ["locked.txt"] ["locked.txt"] _
              Hargc eq_refl Hexpand Hne eq_refl eq_refl) as (H1 & H2 & _).
  by split.
Defined.

(* ===================================================================== *)
(** * Part III: further properties                                        *)
(* ===================================================================== *)

(** ** wildcardMatch: patterns without a star *)

Lemma find_cons_None_inv c d s :
  find c (String d s) = None → d ≠ c ∧ find c s = None.
Proof.
  simpl. destruct (Ascii.eqb_spec d c) as [->|Hne]; [done|].
  by destruct (find c s).
Qed.

Lemma find_None_sdrop c s i : find c s = None → find c (sdrop i s) = None.
Proof.
  revert s. induction i as [|i IH]; intros s; [done|].
  destruct s as [|d s]; [done|]. intros [_ H]%find_cons_None_inv. by apply IH.
Qed.

Lemma glob_matches_star_free p t :
  find "*" p = None → (glob_matches p t ↔ chars_match p t = true).
Proof.
  revert t. induction p as [|pc p IH]; intros t Hp.
  - split; [by intros ->%glob_matches_nil_inv | destruct t; [constructor | done]].
  - apply find_cons_None_inv in Hp as [Hpc Hp]. split.
    + intros (tc & t' & -> & Hc & Hm)%glob_matches_char_inv; [|done].
      simpl. apply andb_true_intro. split; [|by apply IH].
      destruct Hc as [-> | ->]; [done|]. rewrite Ascii.eqb_refl. apply orb_true_r.
    + destruct t as [|tc t]; [done|]. simpl.
      intros [Hc Hm]%andb_prop. apply IH in Hm; [|done].
      apply orb_prop in Hc as [->%Ascii.eqb_eq | ->%Ascii.eqb_eq].
      * by apply gm_any.
      * by apply glob_matches_same.
Qed.

Lemma wm_body_star_free text pattern s :
  find "*" pattern = None →
  starIdx s = None →
  glob_matches (sdrop (pIdx s) pattern) (sdrop (tIdx s) text) →
  tIdx s < String.length text →
  ∃ s', wm_body text pattern s = WmContinue s' ∧ starIdx s' = None ∧
        glob_matches (sdrop (pIdx s') pattern) (sdrop (tIdx s') text).
Proof.
  intros Hfree Hstar Hm Hlt.
  pose proof (wm_body_branch text pattern s Hlt) as Hbr.
  inversion Hbr as [pc tc Hp Htc Hpc|tc Hp Htc Hne|tc st Htc Hp Hs|tc Htc Hp Hs].
  - eexists. split; [done|]. split; [done|]. cbn [tIdx pIdx].
    rewrite (sdrop_get_Some _ _ _ Hp), (sdrop_get_Some _ _ _ Htc) in Hm.
    apply glob_matches_char_inv in Hm as (tc' & t' & [= <- <-] & _ & Hm); [done|].
    by apply (find_None_get _ _ _ _ Hfree Hp).
  - by destruct (find_None_get _ _ _ _ Hfree Hp).
  - congruence.
  - by destruct (glob_mismatch text pattern s tc Htc Hp).
Qed.

Lemma wm_loop_star_free text pattern fuel s :
  find "*" pattern = None →
  wm_sound_inv text pattern s →
  starIdx s = None →
  glob_matches (sdrop (pIdx s) pattern) (sdrop (tIdx s) text) →
  wm_measure text pattern s < fuel →
  ∃ s', wm_loop fuel text pattern s = WmExit s' ∧
        tIdx s' = String.length text ∧
        glob_matches (sdrop (pIdx s') pattern) (sdrop (tIdx s') text).
Proof.
  intros Hfree. revert s.
  induction fuel as [|fuel IH]; intros s Hinv Hstar Hm Hfuel; [lia|].
  simpl. destruct (Nat.ltb_spec (tIdx s) (String.length text)) as [Hlt|Hge].
  - destruct (wm_body_star_free _ _ _ Hfree Hstar Hm Hlt) as (s' & Hbody & Hstar' & Hm').
    rewrite Hbody.
    destruct (wm_body_inv _ _ _ _ Hinv Hlt Hbody) as [Hinv' Hdec].
    apply IH; [done | done | done | lia].
  - exists s. split; [done|]. split; [|done]. destruct Hinv as (? & _). lia.
Qed.

Lemma wildcardMatch_complete_star_free text pattern :
  find "*" pattern = None →
  glob_matches pattern text → wildcardMatch text pattern = true.
Proof.
  intros Hfree Hm. apply wildcardMatch_unfold.
  destruct (wm_loop_star_free text pattern (wm_fuel text pattern) wm_init Hfree)
    as (s & Hloop & Ht & Hm').
  - apply wm_init_inv.
  - done.
  - done.
  - apply wm_measure_bound, wm_init_inv.
  - exists s. split; [done|]. split; [done|].
    apply glob_matches_empty. by rewrite Ht, (sdrop_ge _ text) in Hm' by lia.
Qed.

Lemma wildcardMatch_chars_match text pattern :
  find "*" pattern = None →
  wildcardMatch text pattern = chars_match pattern text.
Proof.
  intros Hfree. destruct (chars_match pattern text) eqn:Hc.
  - by apply wildcardMatch_complete_star_free, glob_matches_star_free.
  - destruct (wildcardMatch text pattern) eqn:Hw; [|done].
    apply wildcardMatch_sound, glob_matches_star_free in Hw; congruence.
Qed.

Lemma chars_match_length pattern text :
  chars_match pattern text = true → String.length text = String.length pattern.
Proof.
  revert text. induction pattern as [|pc p IH]; intros [|tc t]; simpl; try done.
  intros [_ H]%andb_prop. f_equal. by apply IH.
Qed.

(** X1: a pattern without a star is compared with the candidate character
    by character, [?] standing for any one character; the candidate must
    have the length of the pattern. This holds also for candidates that
    have stars or question marks in them. *)
Theorem wildcardMatch_without_star text pattern :
  find "*" pattern = None →
  wildcardMatch text pattern = chars_match pattern text ∧
  (wildcardMatch text pattern = true → String.length text = String.length pattern).
Proof.
  intros Hfree. rewrite wildcardMatch_chars_match by done.
  split; [done | apply chars_match_length].
Qed.

Lemma wildcardMatch_without_star_witness :
  wildcardMatch "f*le1.txt" "f?le?.txt" = chars_match "f?le?.txt" "f*le1.txt" ∧
  (wildcardMatch "f*le1.txt" "f?le?.txt" = true →
   String.length "f*le1.txt" = String.length "f?le?.txt").
Proof. apply wildcardMatch_without_star. reflexivity. Defined.

Lemma chars_match_literal pattern text :
  find "?" pattern = None → chars_match pattern text = String.eqb text pattern.
Proof.
  revert text. induction pattern as [|pc p IH]; intros [|tc t] Hq; try done.
  apply find_cons_None_inv in Hq as [Hpc Hq]. simpl.
  apply Ascii.eqb_neq in Hpc. rewrite Hpc, (Ascii.eqb_sym tc pc), IH by done.
  done.
Qed.

(** X2: a pattern without [*] and [?] matches itself and nothing else. *)
Theorem wildcardMatch_literal text pattern :
  has_wildcard pattern = false →
  wildcardMatch text pattern = String.eqb text pattern.
Proof.
  unfold has_wildcard. intros Hw.
  destruct (find "*" pattern) eqn:Hs; [done|].
  destruct (find "?" pattern) eqn:Hq; [done|].
  by rewrite wildcardMatch_chars_match, chars_match_literal.
Qed.

Lemma wildcardMatch_literal_witness :
  wildcardMatch "rockyou.txt" "rockyou.txt" = String.eqb "rockyou.txt" "rockyou.txt" ∧
  wildcardMatch "rockyou.txt.bak" "rockyou.txt" = false.
Proof.
  split.
  - apply wildcardMatch_literal. reflexivity.
  - rewrite wildcardMatch_literal; reflexivity.
Defined.

(** ** wildcardMatch: a star at one end *)

Lemma glob_star_any t : glob_matches "*" t.
Proof. induction t; [apply gm_star_none, gm_empty | by apply gm_star_more]. Qed.

Lemma glob_star_suffix p t :
  find "*" p = None →
  (glob_matches (String "*" p) t ↔
   ∃ pre suf, t = pre ++ suf ∧ chars_match p suf = true).
Proof.
  intros Hp. split.
  - intros H. remember (String "*" p) as q eqn:Hq.
    induction H as [|p' t c H IH|p' t c Hc _ H IH|p' t H IH|p' t c H IH];
      try discriminate.
    + by injection Hq as Hq _.
    + injection Hq as ->. exists "", t. split; [done|].
      by apply glob_matches_star_free.
    + destruct (IH Hq) as (pre & suf & -> & Hm).
      exists (String c pre), suf. by rewrite append_cons.
  - intros (pre & suf & -> & Hm). induction pre as [|c pre IH].
    + apply gm_star_none. by apply glob_matches_star_free.
    + rewrite append_cons. by apply gm_star_more.
Qed.

Lemma glob_star_prefix p t :
  find "*" p = None →
  (glob_matches (p ++ "*") t ↔
   ∃ pre rest, t = pre ++ rest ∧ chars_match p pre = true).
Proof.
  revert t. induction p as [|pc p IH]; intros t Hp.
  - rewrite append_nil_l. split; [|intros _; apply glob_star_any].
    intros _. by exists "", t.
  - apply find_cons_None_inv in Hp as [Hpc Hp]. rewrite append_cons. split.
    + intros (tc & t' & -> & Hc & Hm)%glob_matches_char_inv; [|done].
      apply IH in Hm as (pre & rest & -> & Hm); [|done].
      exists (String tc pre), rest. rewrite append_cons. split; [done|].
      simpl. rewrite Hm, andb_true_r.
      destruct Hc as [-> | ->]; [done|]. rewrite Ascii.eqb_refl. apply orb_true_r.
    + intros (pre & rest & -> & Hm). destruct pre as [|tc pre]; [done|].
      simpl in Hm. apply andb_prop in Hm as [Hc Hm]. rewrite append_cons.
      assert (glob_matches (p ++ "*") (pre ++ rest)) as Hrec
        by (apply IH; eauto).
      apply orb_prop in Hc as [->%Ascii.eqb_eq | ->%Ascii.eqb_eq].
      * by apply gm_any.
      * by apply glob_matches_same.
Qed.

Lemma find_app_None c (s1 s2 : string) :
  find c (s1 ++ s2) = None ↔ find c s1 = None ∧ find c s2 = None.
Proof.
  induction s1 as [|d s1 IH]; [rewrite append_nil_l; naive_solver|].
  rewrite append_cons. split.
  - intros [Hd H]%find_cons_None_inv. apply IH in H as [H1 H2].
    split; [|done]. simpl. apply Ascii.eqb_neq in Hd. by rewrite Hd, H1.
  - intros [[Hd H1]%find_cons_None_inv H2]. simpl.
    apply Ascii.eqb_neq in Hd. rewrite Hd.
    by rewrite (proj2 IH (conj H1 H2)).
Qed.

(** X3: for a candidate without a star, the pattern [*suffix], where
    [suffix] has no star, accepts exactly the candidates that end with
    characters matching [suffix] one by one ([?] for any character): with
    [*.txt], exactly the names that end in [.txt]. *)
Theorem wildcardMatch_suffix text suffix :
  find "*" suffix = None →
  find "*" text = None →
  (wildcardMatch text (String "*" suffix) = true ↔
   ∃ pre suf, text = pre ++ suf ∧ chars_match suffix suf = true).
Proof.
  intros Hsuffix Htext. rewrite <- glob_star_suffix by done.
  split; [apply wildcardMatch_sound | by apply wildcardMatch_complete].
Qed.

Lemma wildcardMatch_suffix_witness :
  wildcardMatch "pass.words.txt" "*.txt" = true ↔
  ∃ pre suf, "pass.words.txt" = pre ++ suf ∧ chars_match ".txt" suf = true.
Proof. apply (wildcardMatch_suffix "pass.words.txt" ".txt"); reflexivity. Defined.

(** X4: for a candidate without a star, the pattern [prefix*], where
    [prefix] has no star, accepts exactly the candidates that begin with
    characters matching [prefix] one by one. *)
Theorem wildcardMatch_prefix text prefix :
  find "*" prefix = None →
  find "*" text = None →
  (wildcardMatch text (prefix ++ "*") = true ↔
   ∃ pre rest, text = pre ++ rest ∧ chars_match prefix pre = true).
Proof.
  intros Hprefix Htext. rewrite <- glob_star_prefix by done.
  split; [apply wildcardMatch_sound | by apply wildcardMatch_complete].
Qed.

Lemma wildcardMatch_prefix_witness :
  wildcardMatch "list-2024.txt" ("list-" ++ "*") = true ↔
  ∃ pre rest, "list-2024.txt" = pre ++ rest ∧ chars_match "list-" pre = true.
Proof. apply (wildcardMatch_prefix "list-2024.txt" "list-"); reflexivity. Defined.

(** ** wildcardMatch: the pattern [*], and a star in the candidate *)

Lemma wm_fuel_ge_2 text pattern : 2 ≤ wm_fuel text pattern.
Proof. unfold wm_fuel. nia. Qed.

(** X5: the pattern [*] accepts every candidate that has no star in it.
    A star in the candidate is first compared with the star of the
    pattern as a character: [*] accepts the candidate [*] and rejects
    every longer candidate that begins with a star. *)
Theorem wildcardMatch_star_alone :
  (∀ text, find "*" text = None → wildcardMatch text "*" = true) ∧
  wildcardMatch "*" "*" = true ∧
  (∀ c t, wildcardMatch (String "*" (String c t)) "*" = false).
Proof.
  split; [|split; [reflexivity|]].
  - intros text Htext. apply wildcardMatch_complete; [done | apply glob_star_any].
  - intros c t. unfold wildcardMatch.
    pose proof (wm_fuel_ge_2 (String "*" (String c t)) "*") as Hfuel.
    destruct (wm_fuel (String "*" (String c t)) "*") as [|[|fuel]]; [lia | lia|].
    reflexivity.
Qed.

Lemma wildcardMatch_star_alone_witness : wildcardMatch "notes.txt" "*" = true.
Proof.
  destruct wildcardMatch_star_alone as [H _]. apply H. reflexivity.
Defined.

(** ** wildcardMatch: the number of iterations *)

Lemma wm_loop_more_fuel text pattern fuel k s :
  wm_loop fuel text pattern s ≠ WmOutOfFuel →
  wm_loop (fuel + k) text pattern s = wm_loop fuel text pattern s.
Proof.
  revert s. induction fuel as [|fuel IH]; intros s; simpl.
  - destruct (tIdx s <? String.length text) eqn:Hlt; [done|]. intros _.
    destruct k; simpl; by rewrite Hlt.
  - destruct (tIdx s <? String.length text); [|done].
    destruct (wm_body text pattern s) as [s'|]; [apply IH | done].
Qed.

(** X6: the first loop of the matcher ends for every candidate and
    pattern within [(|pattern| + 2) * (|text| + 1)²] iterations, and more
    fuel does not change what it returns. *)
Theorem wildcardMatch_loop_terminates text pattern fuel :
  wm_fuel text pattern ≤ fuel →
  wm_loop fuel text pattern wm_init ≠ WmOutOfFuel ∧
  wm_loop fuel text pattern wm_init =
    wm_loop (wm_fuel text pattern) text pattern wm_init.
Proof.
  intros Hfuel. pose proof (wm_loop_terminates text pattern) as Hterm.
  replace fuel with (wm_fuel text pattern + (fuel - wm_fuel text pattern)) by lia.
  by rewrite wm_loop_more_fuel.
Qed.

Lemma wildcardMatch_loop_terminates_witness :
  wm_loop 1000 "aaaaaaab" "*a*a*a*c" wm_init ≠ WmOutOfFuel ∧
  wm_loop 1000 "aaaaaaab" "*a*a*a*c" wm_init =
    wm_loop (wm_fuel "aaaaaaab" "*a*a*a*c") "aaaaaaab" "*a*a*a*c" wm_init.
Proof.
  apply wildcardMatch_loop_terminates. vm_compute. lia.
Defined.

(** ** expandFilePaths: the wildcard branch *)

Lemma expand_entries_filter fs filename entries result :
  expand_entries fs filename entries result =
  (result ++ (entry_path <$> filter (λ e, entry_matches fs filename e) entries))%list.
Proof.
  revert result. induction entries as [|e entries IH]; intros result.
  { simpl. by rewrite app_nil_r. }
  cbn [expand_entries]. destruct (entry_matches fs filename e) eqn:Hm.
  - rewrite filter_cons_True by (by apply Is_true_eq_left).
    unfold entry_matches in Hm. apply andb_prop in Hm as [-> ->].
    by rewrite IH, fmap_cons, <- app_assoc.
  - rewrite filter_cons_False by (intros ?%Is_true_eq_true; congruence).
    unfold entry_matches in Hm.
    destruct (entry_is_regular e); [|apply IH].
    simpl in Hm. rewrite Hm. apply IH.
Qed.

Lemma fs_directory_exists t :
  fs_exists t && fs_is_directory t = true ↔ t = ft_directory.
Proof. by destruct t. Qed.

Lemma expand_wildcard_directory fs pattern result cerr entries err :
  fs_status fs (wildcard_dir fs pattern) = FsOk ft_directory →
  fs_directory_iterator fs (wildcard_dir fs pattern) = (entries, err) →
  expand_wildcard fs pattern result cerr =
    ((result ++ (entry_path <$>
                   filter (λ e, entry_matches fs (fs_filename fs pattern) e) entries))%list,
     cerr ++ match err with
             | None => ""
             | Some what => warn_pattern_error pattern what
             end).
Proof.
  unfold expand_wildcard, wildcard_dir. intros -> ->. simpl.
  rewrite expand_entries_filter. destruct err; [done|]. by rewrite append_nil_r.
Qed.

(** X7: a wildcard pattern whose directory is there contributes the
    paths of the regular entries of that directory whose names the file
    name part of the pattern matches, in the order of the iteration; when
    the iteration fails, what it gave before is kept and a warning is
    added. Every regular entry with a star-free name that the file name
    part matches in full is among them. *)
Theorem expandFilePaths_wildcard_directory fs pattern cerr entries err :
  has_wildcard pattern = true →
  fs_status fs (wildcard_dir fs pattern) = FsOk ft_directory →
  fs_directory_iterator fs (wildcard_dir fs pattern) = (entries, err) →
  let found :=
    entry_path <$> filter (λ e, entry_matches fs (fs_filename fs pattern) e) entries in
  expandFilePaths fs [pattern] cerr =
    (Returned found,
     cerr ++ match err with
             | None => ""
             | Some what => warn_pattern_error pattern what
             end) ∧
  (∀ e, e ∈ entries → entry_is_regular e = true →
        find "*" (fs_filename fs (entry_path e)) = None →
        glob_matches (fs_filename fs pattern) (fs_filename fs (entry_path e)) →
        entry_path e ∈ found).
Proof.
  intros Hw Hdir Hiter found. split.
  - unfold expandFilePaths. cbn [expand_loop]. rewrite Hw.
    by rewrite (expand_wildcard_directory _ _ _ _ _ _ Hdir Hiter).
  - intros e He Hreg Hfree Hm. apply list_elem_of_fmap. exists e. split; [done|].
    apply list_elem_of_filter. split; [|done].
    unfold entry_matches. rewrite Hreg. simpl.
    by rewrite wildcardMatch_complete.
Qed.

Lemma expandFilePaths_wildcard_directory_witness :
  expandFilePaths ex_fs ["./?"] "" = (Returned ["./A"; "./B"; "./X"; "./Y"], "" ++ "") ∧
  "./A" ∈ ["./A"; "./B"; "./X"; "./Y"].
Proof.
  assert (has_wildcard "./?" = true) as Hw by reflexivity.
  assert (fs_status ex_fs (wildcard_dir ex_fs "./?") = FsOk ft_directory) as Hdir
    by reflexivity.
  pose proof (expandFilePaths_wildcard_directory ex_fs "./?" "" _ None Hw Hdir eq_refl)
    as H.
  cbv zeta in H. destruct H as [H1 H2]. split; [exact H1|].
  apply (H2 (DirEntry "./A" true)).
  - apply list_elem_of_here.
  - reflexivity.
  - reflexivity.
  - apply gm_any, gm_empty.
Defined.

(** ** expandFilePaths: where the resolved paths come from *)

Lemma expand_loop_resolved fs all patterns result cerr result' cerr' :
  (∀ p, p ∈ patterns → p ∈ all) →
  Forall (resolved_from fs all) result →
  expand_loop fs patterns result cerr = (Returned result', cerr') →
  Forall (resolved_from fs all) result'.
Proof.
  revert result cerr. induction patterns as [|p patterns IH];
    intros result cerr Hall Hres; cbn [expand_loop].
  { by intros [= <- _]. }
  assert (∀ q, q ∈ patterns → q ∈ all) as Hall' by (intros q Hq; apply Hall; by right).
  assert (p ∈ all) as Hp by (apply Hall; by left).
  destruct (has_wildcard p) eqn:Hw.
  - destruct (expand_wildcard fs p result cerr) as [result1 cerr1] eqn:Hexp.
    apply IH; [done|]. revert Hexp. unfold expand_wildcard.
    fold (wildcard_dir fs p).
    destruct (fs_status fs (wildcard_dir fs p)) as [t|what] eqn:Hst;
      [|by intros [= <- _]].
    destruct (fs_exists t && fs_is_directory t) eqn:Hdir; [|by intros [= <- _]].
    apply fs_directory_exists in Hdir as ->.
    destruct (fs_directory_iterator fs (wildcard_dir fs p)) as [entries err] eqn:Hit.
    rewrite expand_entries_filter.
    assert (Forall (resolved_from fs all)
              (entry_path <$> filter (λ e, entry_matches fs (fs_filename fs p) e) entries))
      as Hnew.
    { apply Forall_fmap, Forall_forall. intros e [Hm He]%list_elem_of_filter.
      unfold entry_matches in Hm. apply andb_prop_elim in Hm as [Hreg Hm].
      apply Is_true_eq_true in Hreg, Hm. right. exists p, e.
      rewrite Hit. repeat split; try done. by apply wildcardMatch_sound. }
    destruct err; intros [= <- _]; by apply Forall_app.
  - unfold expand_literal.
    destruct (fs_status fs p) as [t|what] eqn:Hst; [|done].
    rewrite fs_regular_exists. destruct t; simpl; try by apply IH.
    apply IH; [done|]. apply Forall_app. split; [done|].
    apply Forall_singleton. left. done.
Qed.

(** X8: every path that [expandFilePaths] returns comes from one of the
    patterns: it is a pattern without wildcard whose status is that of a
    regular file, or the path of a regular entry of the directory of a
    wildcard pattern, with a name that the file name part of the pattern
    matches in full. *)
Theorem expandFilePaths_resolved fs patterns cerr result cerr' :
  expandFilePaths fs patterns cerr = (Returned result, cerr') →
  Forall (resolved_from fs patterns) result.
Proof.
  intros H. by eapply (expand_loop_resolved fs patterns patterns [] cerr).
Qed.

Lemma expandFilePaths_resolved_witness :
  Forall (resolved_from ex_fs ["A"; "missing.txt"; "*.txt"]) ["A"; "./locked.txt"].
Proof.
  by apply (expandFilePaths_resolved ex_fs ["A"; "missing.txt"; "*.txt"] ""
              ["A"; "./locked.txt"]
              ("" ++ "Warning: File not found or not a regular file: missing.txt" ++ nl)).
Defined.

(** ** expandFilePaths: one pattern after the other *)

Lemma after_prefix_after_prefix r c r' c' o :
  after_prefix r c (after_prefix r' c' o) =
  after_prefix (r ++ r')%list (c ++ c') o.
Proof. destruct o as [[?|?] ?]; simpl; by rewrite ?app_assoc, append_assoc. Qed.

Lemma expand_wildcard_prefix fs pattern result cerr :
  expand_wildcard fs pattern result cerr =
  ((result ++ (expand_wildcard fs pattern [] "").1)%list,
   cerr ++ (expand_wildcard fs pattern [] "").2).
Proof.
  unfold expand_wildcard.
  destruct (fs_status fs _) as [t|what]; simpl; [|by rewrite app_nil_r].
  destruct (fs_exists t && fs_is_directory t); simpl; [|by rewrite app_nil_r].
  destruct (fs_directory_iterator fs _) as [entries err].
  rewrite !expand_entries_filter.
  destruct err; simpl; by rewrite ?append_nil_r.
Qed.

Lemma expand_literal_prefix fs pattern result cerr :
  expand_literal fs pattern result cerr =
  after_prefix result cerr (expand_literal fs pattern [] "").
Proof.
  unfold expand_literal. destruct (fs_status fs pattern) as [t|what]; simpl.
  - destruct (fs_exists t && fs_is_regular_file t); simpl;
      by rewrite ?app_nil_r, ?append_nil_r.
  - by rewrite append_nil_r.
Qed.

Lemma expand_loop_prefix fs patterns result cerr :
  expand_loop fs patterns result cerr =
  after_prefix result cerr (expand_loop fs patterns [] "").
Proof.
  revert result cerr. induction patterns as [|p patterns IH]; intros result cerr.
  { simpl. by rewrite app_nil_r, append_nil_r. }
  cbn [expand_loop]. destruct (has_wildcard p).
  - rewrite (expand_wildcard_prefix fs p result cerr).
    destruct (expand_wildcard fs p [] "") as [r1 c1]. cbn [fst snd].
    rewrite IH, (IH r1 c1). by rewrite after_prefix_after_prefix.
  - rewrite (expand_literal_prefix fs p result cerr).
    destruct (expand_literal fs p [] "") as [[r1|what] c1]; simpl; [|done].
    rewrite IH, (IH r1 c1). by rewrite after_prefix_after_prefix.
Qed.

(** X9: the patterns are expanded one after the other and independently:
    the paths of [ps1 ++ ps2] are the paths of [ps1] followed by the paths
    of [ps2], and so are the warnings. *)
Theorem expandFilePaths_app fs ps1 ps2 cerr r1 w1 r2 w2 :
  expandFilePaths fs ps1 "" = (Returned r1, w1) →
  expandFilePaths fs ps2 "" = (Returned r2, w2) →
  expandFilePaths fs (ps1 ++ ps2) cerr =
    (Returned (r1 ++ r2)%list, cerr ++ w1 ++ w2).
Proof.
  unfold expandFilePaths. intros H1 H2.
  rewrite expand_loop_app, (expand_loop_prefix fs ps1 [] cerr), H1. cbn [after_prefix].
  rewrite app_nil_l, (expand_loop_prefix fs ps2 r1), H2. cbn [after_prefix].
  by rewrite append_assoc.
Qed.

Lemma expandFilePaths_app_witness :
  expandFilePaths ex_fs (["missing.txt"; "B"] ++ ["*.bin"; "?"]) "" =
    (Returned (["B"] ++ ["./A"; "./B"; "./X"; "./Y"])%list,
     "" ++ ("Warning: File not found or not a regular file: missing.txt" ++ nl) ++ "").
Proof. apply expandFilePaths_app; reflexivity. Defined.

(** ** expandFilePaths: an error outside the try block *)

(** X10: the status of a pattern without wildcard is read outside the
    [try] block: when reading it fails, the exception leaves
    [expandFilePaths] and [main]; the run ends there, whatever patterns
    follow, and the output file is not created. *)
Theorem main_literal_status_error hasher fs argv outputFile before pattern after
    what r1 c1 :
  2 ≤ length argv →
  parse_args (tl argv) "merged.txt" [] = Some (outputFile, (before ++ pattern :: after)%list) →
  has_wildcard pattern = false →
  fs_status fs pattern = FsError what →
  expandFilePaths fs before ("Expanding file patterns..." ++ nl) = (Returned r1, c1) →
  expandFilePaths fs (before ++ pattern :: after) ("Expanding file patterns..." ++ nl) =
    (Thrown what, c1) ∧
  main hasher fs argv = RunResult (Terminated what) c1 None.
Proof.
  intros Hargc Hparse Hw Hst Hbefore.
  assert (expandFilePaths fs (before ++ pattern :: after)
            ("Expanding file patterns..." ++ nl) = (Thrown what, c1)) as Hexp.
  { unfold expandFilePaths in *. rewrite expand_loop_app, Hbefore.
    cbn [expand_loop]. rewrite Hw. unfold expand_literal. by rewrite Hst. }
  split; [done|]. unfold main.
  destruct (Nat.ltb_spec (length argv) 2) as [?|_]; [lia|].
  rewrite Hparse, Hexp. by destruct before.
Qed.

Lemma main_literal_status_error_witness :
  main fnv1a ex_fs_denied ["merge"; "A"; "denied/list.txt"; "B"] =
    RunResult (Terminated "status: Permission denied")
      ("Expanding file patterns..." ++ nl) None.
Proof.
  assert (2 ≤ length ["merge"; "A"; "denied/list.txt"; "B"]) as Hargc by (simpl; lia).
  eapply proj2,
    (main_literal_status_error fnv1a ex_fs_denied ["merge"; "A"; "denied/list.txt"; "B"]
       "merged.txt" ["A"] "denied/list.txt" ["B"] _ ["A"] _ Hargc);
    reflexivity.
Defined.

(** ** weaveMergeDedup: the text on cerr *)

Section WeaveMore.

Variable hasher : string → Z.

(** The rounds do not read [cerr]: from two states that differ in it
    only, the loop appends the same text and ends in the same state
    otherwise. *)
Lemma weave_loop_cerr fuel files w o it c1 c2 :
  match weave_loop hasher fuel (WeaveState files w o it c1),
        weave_loop hasher fuel (WeaveState files w o it c2) with
  | Some w1, Some w2 =>
      ∃ extra, ws_cerr w1 = c1 ++ extra ∧ ws_cerr w2 = c2 ++ extra ∧
               ws_out w1 = ws_out w2 ∧ ws_written w1 = ws_written w2
  | None, None => True
  | _, _ => False
  end.
Proof.
  revert files w o it c1 c2. induction fuel as [|fuel IH];
    intros files w o it c1 c2; [done|].
  cbn [weave_loop]. unfold weave_body. cbn [ws_files ws_written ws_out ws_iterations ws_cerr].
  destruct (round hasher files (MergeState w o false)) as [files' st].
  destruct (anyAlive st).
  - destruct ((((it + 1) mod 2 ^ 64) mod 10000 =? 0)%Z).
    + specialize (IH files' (written st) (out st) ((it + 1) mod 2 ^ 64)%Z
                    (c1 ++ progress_message (written st))
                    (c2 ++ progress_message (written st))).
      destruct (weave_loop hasher fuel _) as [w1|], (weave_loop hasher fuel _) as [w2|];
        try done.
      destruct IH as (extra & -> & -> & ? & ?).
      exists (progress_message (written st) ++ extra).
      by rewrite !append_assoc.
    + apply IH.
  - destruct ((((it + 1) mod 2 ^ 64) mod 10000 =? 0)%Z); cbn [ws_cerr ws_out ws_written].
    + by exists (progress_message (written st)).
    + exists "". by rewrite !append_nil_r.
Qed.

(** Two runs that open files with the same bytes, in the same order,
    write the same bytes and the same text, the warnings for the files
    that do not open apart. *)
Lemma weaveMergeDedup_same_opened fs1 paths1 fs2 paths2 out0 c1 c2 :
  opened fs1 paths1 = opened fs2 paths2 →
  ∃ out rest,
    weaveMergeDedup hasher fs1 paths1 out0 c1 =
      Some (out, (c1 ++ open_warnings fs1 paths1) ++ rest) ∧
    weaveMergeDedup hasher fs2 paths2 out0 c2 =
      Some (out, (c2 ++ open_warnings fs2 paths2) ++ rest).
Proof.
  intros Hopen. unfold weaveMergeDedup.
  rewrite !open_files_spec, !app_nil_l, Hopen.
  destruct (opened fs2 paths2) as [|c cs]; [by eexists _, _|].
  rewrite (fmap_cons open_stream).
  set (files := open_stream c :: (open_stream <$> cs)).
  set (msg := "Weave-merging " ++ show_nat (length files) ++ " files..." ++ nl).
  pose proof (weave_loop_cerr (weave_fuel files) files ∅ out0 0
                ((c1 ++ open_warnings fs1 paths1) ++ msg)
                ((c2 ++ open_warnings fs2 paths2) ++ msg)) as Hloop.
  destruct (weave_loop_returns hasher (weave_fuel files)
              (WeaveState files ∅ out0 0 ((c1 ++ open_warnings fs1 paths1) ++ msg)))
    as [w1 Hw1]; [cbn [ws_files]; unfold weave_fuel; lia|].
  rewrite Hw1 in Hloop |- *.
  destruct (weave_loop hasher (weave_fuel files) _) as [w2|]; [|done].
  destruct Hloop as (extra & -> & -> & -> & ->).
  exists (ws_out w2), (msg ++ extra ++ summary_message (ws_written w2)).
  by rewrite !append_assoc.
Qed.

Lemma opened_filter fs filePaths :
  opened fs (filter (λ p, is_Some (fs_open_read fs p)) filePaths) = opened fs filePaths ∧
  open_warnings fs (filter (λ p, is_Some (fs_open_read fs p)) filePaths) = "".
Proof.
  unfold opened. induction filePaths as [|p filePaths [IH1 IH2]]; [done|].
  rewrite filter_cons. cbn [omap list_omap open_warnings].
  destruct (fs_open_read fs p) as [c|] eqn:Hp.
  - rewrite decide_True by done. cbn [omap list_omap open_warnings].
    by rewrite Hp, IH1, IH2.
  - rewrite decide_False by (by intros [? ?]). done.
Qed.

(** X11: a file that does not open costs one warning and nothing else:
    the run writes the bytes, and after the warnings the text, of the run
    on the paths that do open. *)
Theorem weaveMergeDedup_unopened_skipped fs filePaths out0 cerr0 :
  ∃ out rest,
    weaveMergeDedup hasher fs filePaths out0 cerr0 =
      Some (out, (cerr0 ++ open_warnings fs filePaths) ++ rest) ∧
    weaveMergeDedup hasher fs
      (filter (λ p, is_Some (fs_open_read fs p)) filePaths) out0 cerr0 =
      Some (out, cerr0 ++ rest).
Proof.
  destruct (opened_filter fs filePaths) as [Hopen Hwarn].
  destruct (weaveMergeDedup_same_opened fs filePaths fs
              (filter (λ p, is_Some (fs_open_read fs p)) filePaths) out0 cerr0 cerr0)
    as (out & rest & H1 & H2); [done|].
  exists out, rest. split; [done|]. by rewrite H2, Hwarn, append_nil_r.
Qed.

(** ** weaveMergeDedup: what is written and what is reported *)

Lemma merge_lines_hashes contents :
  list_to_set (hasher <$> merge_lines hasher contents) =@{gset Z}
  list_to_set (hasher <$> weave (lines_of <$> contents)).
Proof.
  unfold merge_lines.
  pose proof (dedup_hash_hashes hasher ∅ (weave (lines_of <$> contents))) as H.
  by rewrite !(left_id_L ∅ (∪)) in H.
Qed.

Lemma merge_lines_size contents :
  size (list_to_set (hasher <$> merge_lines hasher contents) : gset Z) =
  length (merge_lines hasher contents).
Proof.
  rewrite size_list_to_set by apply dedup_hash_NoDup. apply length_fmap.
Qed.

Lemma weaveMergeDedup_summary fs filePaths out0 cerr0 :
  opened fs filePaths ≠ [] →
  ∃ pre,
    weaveMergeDedup hasher fs filePaths out0 cerr0 =
      Some (out0 ++ unlines (merge_lines hasher (opened fs filePaths)),
            pre ++ summary_message
                     (list_to_set (hasher <$> merge_lines hasher (opened fs filePaths)))).
Proof.
  intros Hne. unfold weaveMergeDedup. rewrite open_files_spec, app_nil_l.
  destruct (opened fs filePaths) as [|c cs]; [done|].
  rewrite merge_lines_hashes. unfold merge_lines.
  rewrite <- (stream_lines_open (c :: cs)). rewrite (fmap_cons open_stream).
  match goal with
  | |- context [weave_loop _ ?fuel ?w] =>
      destruct (weave_loop_returns hasher fuel w) as [w' Hloop]
  end.
  { cbn [ws_files]. unfold weave_fuel. lia. }
  rewrite Hloop. apply weave_loop_sound in Hloop as [Hout Hwr].
  cbn [ws_files ws_out ws_written] in Hout, Hwr.
  rewrite Hout, Hwr, (left_id_L ∅ (∪)). by eexists.
Qed.

(** X12: when a file opens, the last text on [cerr] reports the number
    of hashes in the set, and that is the number of lines written,
    whatever the hash function. *)
Theorem weaveMergeDedup_reported_count fs filePaths out0 cerr0 :
  opened fs filePaths ≠ [] →
  ∃ ls w pre,
    weaveMergeDedup hasher fs filePaths out0 cerr0 =
      Some (out0 ++ unlines ls, pre ++ summary_message w) ∧
    lines_of (unlines ls) = ls ∧
    size w = length ls.
Proof.
  intros Hne. destruct (weaveMergeDedup_summary fs filePaths out0 cerr0 Hne) as [pre ->].
  eexists _, _, pre. split; [done|]. split.
  - apply (lines_of_unlines hasher), merge_lines_no_newline.
  - apply merge_lines_size.
Qed.

(** X13: every line that is written is a line of a file that opened, and
    every line of such a file is written or has the hash of a line that
    is written. *)
Theorem weaveMergeDedup_lines_covered fs filePaths out0 cerr0 :
  ∃ ls cerr,
    weaveMergeDedup hasher fs filePaths out0 cerr0 = Some (out0 ++ unlines ls, cerr) ∧
    (∀ l, l ∈ ls → l ∈ concat (lines_of <$> opened fs filePaths)) ∧
    (∀ l, l ∈ concat (lines_of <$> opened fs filePaths) →
          ∃ l', l' ∈ ls ∧ hasher l' = hasher l).
Proof.
  destruct (weaveMergeDedup_spec hasher fs filePaths out0 cerr0) as [cerr ->].
  eexists _, cerr. split; [done|]. split.
  - intros l [Hl _]%dedup_hash_elem. by rewrite weave_perm in Hl.
  - intros l Hl. rewrite <- weave_perm in Hl.
    assert (hasher l ∈ (list_to_set (hasher <$> merge_lines hasher (opened fs filePaths))
                          : gset Z)) as Hin.
    { rewrite merge_lines_hashes. apply elem_of_list_to_set, list_elem_of_fmap. eauto. }
    apply elem_of_list_to_set, list_elem_of_fmap in Hin as (l' & Heq & Hl').
    eauto.
Qed.

(** ** weaveMergeDedup: the number of rounds *)

Lemma weave_loop_quiet fuel w w' :
  weave_loop hasher fuel w = Some w' →
  (0 ≤ ws_iterations w)%Z →
  (ws_iterations w + Z.of_nat (S (max_list (length <$> (stream_lines <$> ws_files w))))
   < 10000)%Z →
  ws_cerr w' = ws_cerr w ∧
  ws_iterations w' =
    (ws_iterations w +
     Z.of_nat (S (max_list (length <$> (stream_lines <$> ws_files w)))))%Z.
Proof.
  revert w. induction fuel as [|fuel IH]; intros w; [done|].
  cbn [weave_loop]. pose proof (weave_body_spec hasher w) as Hbody.
  unfold weave_body in *.
  destruct (round hasher (ws_files w) _) as [files st].
  cbn [ws_files ws_out ws_written] in Hbody.
  destruct Hbody as (Hls & _ & _ & Halive & _).
  intros Hloop Hpos Hsmall.
  assert (((ws_iterations w + 1) mod 2 ^ 64)%Z = (ws_iterations w + 1)%Z) as Hit
    by (apply Z.mod_small; lia).
  rewrite Hit in Hloop.
  assert (((ws_iterations w + 1) mod 10000 =? 0)%Z = false) as Hmod.
  { apply Z.eqb_neq. rewrite Z.mod_small; lia. }
  rewrite Hmod in Hloop. rewrite Halive in Hloop.
  destruct (bool_decide_reflect (heads (stream_lines <$> ws_files w) ≠ [])) as [Hne|He].
  - assert (max_list (length <$> (stream_lines <$> ws_files w)) ≠ 0)
      by (by rewrite <- heads_nil_max_len).
    apply IH in Hloop; cbn [ws_files ws_iterations ws_cerr] in *.
    + destruct Hloop as [-> ->]. split; [done|].
      rewrite Hls, max_len_tails. lia.
    + lia.
    + rewrite Hls, max_len_tails. lia.
  - injection Hloop as <-. cbn [ws_cerr ws_iterations]. split; [done|].
    assert (heads (stream_lines <$> ws_files w) = []) as Hnil
      by (destruct (heads _); [done | by destruct He]).
    apply heads_nil_max_len in Hnil. rewrite Hnil. lia.
Qed.

(** X14: when every file that opens has fewer than 9999 lines, the loop
    makes one round more than the longest of them has lines and writes no
    progress text: [cerr] gets the warnings for the files that do not
    open, the number of files that do, and the number of lines written. *)
Theorem weaveMergeDedup_small_inputs fs filePaths out0 cerr0 :
  opened fs filePaths ≠ [] →
  (Z.of_nat (max_list (length <$> (lines_of <$> opened fs filePaths))) < 9999)%Z →
  let ls := merge_lines hasher (opened fs filePaths) in
  let files := open_stream <$> opened fs filePaths in
  let started :=
    (cerr0 ++ open_warnings fs filePaths) ++
    "Weave-merging " ++ show_nat (length (opened fs filePaths)) ++ " files..." ++ nl in
  open_files fs filePaths [] cerr0 = (files, cerr0 ++ open_warnings fs filePaths) ∧
  (∃ w,
     weave_loop hasher (weave_fuel files) (WeaveState files ∅ out0 0 started) = Some w ∧
     ws_iterations w =
       Z.of_nat (S (max_list (length <$> (lines_of <$> opened fs filePaths)))) ∧
     ws_cerr w = started) ∧
  weaveMergeDedup hasher fs filePaths out0 cerr0 =
    Some (out0 ++ unlines ls, started ++ summary_message (list_to_set (hasher <$> ls))).
Proof.
  intros Hne Hsmall ls files started.
  assert (open_files fs filePaths [] cerr0 = (files, cerr0 ++ open_warnings fs filePaths))
    as Hopen by (by rewrite open_files_spec, app_nil_l).
  split; [done|].
  unfold weaveMergeDedup. rewrite Hopen.
  destruct (weave_loop_returns hasher (weave_fuel files)
              (WeaveState files ∅ out0 0 started)) as [w Hloop].
  { cbn [ws_files]. unfold weave_fuel. lia. }
  pose proof (weave_loop_sound _ _ _ _ Hloop) as [Hout Hwr].
  pose proof (weave_loop_quiet _ _ _ Hloop) as Hquiet.
  cbn [ws_files ws_out ws_written ws_iterations ws_cerr] in Hout, Hwr, Hquiet.
  unfold files in Hout, Hwr, Hquiet. rewrite stream_lines_open in Hout, Hwr, Hquiet.
  destruct Hquiet as [Hcerr Hit]; [lia | lia |].
  split; [by exists w|].
  assert (length files = length (opened fs filePaths)) as Hlen
    by apply length_fmap.
  destruct files as [|f files'] eqn:Hfiles.
  { destruct (opened fs filePaths); [done | discriminate]. }
  rewrite Hlen. fold started. rewrite Hloop, Hout, Hwr, Hcerr, (left_id_L ∅ (∪)).
  subst ls. by rewrite merge_lines_hashes.
Qed.

(** ** weaveMergeDedup: the loop ends *)

Lemma weave_loop_more_fuel fuel k w w' :
  weave_loop hasher fuel w = Some w' → weave_loop hasher (fuel + k) w = Some w'.
Proof.
  revert w. induction fuel as [|fuel IH]; intros w; [done|].
  cbn [weave_loop Nat.add]. destruct (weave_body hasher w) as [w1 alive].
  destruct alive; [apply IH | done].
Qed.

(** X15: the loop of rounds ends for every state as soon as the fuel
    exceeds the number of bytes not read yet, and more fuel does not
    change the state it ends in; so [weaveMergeDedup] returns on every
    file system and list of paths, and [main] ends on every input. *)
Theorem weaveMergeDedup_terminates :
  (∀ fuel w,
     unread (ws_files w) < fuel →
     ∃ w', weave_loop hasher fuel w = Some w' ∧
           weave_loop hasher (S (unread (ws_files w))) w = Some w') ∧
  (∀ fs filePaths out0 cerr0,
     is_Some (weaveMergeDedup hasher fs filePaths out0 cerr0)) ∧
  (∀ fs argv, run_exit (main hasher fs argv) ≠ Diverged).
Proof.
  split; [|split; [apply weaveMergeDedup_returns | apply main_terminates]].
  intros fuel w Hfuel.
  destruct (weave_loop_returns hasher (S (unread (ws_files w))) w) as [w' Hw']; [lia|].
  exists w'. split; [|done].
  replace fuel with (S (unread (ws_files w)) + (fuel - S (unread (ws_files w)))) by lia.
  by apply weave_loop_more_fuel.
Qed.

(** ** weaveMergeDedup: one file, and the output read again *)

Lemma dedup_hash_id seen ls :
  NoDup (hasher <$> ls) →
  (∀ l, l ∈ ls → hasher l ∉ seen) →
  dedup_hash hasher seen ls = ls.
Proof.
  revert seen. induction ls as [|l ls IH]; intros seen Hnd Hnew; [done|].
  rewrite fmap_cons in Hnd. apply NoDup_cons in Hnd as [Hl Hnd].
  cbn [dedup_hash]. rewrite bool_decide_eq_false_2 by (apply Hnew; by left).
  f_equal. apply IH; [done|]. intros l' Hl'.
  intros [Heq%elem_of_singleton|Hin]%elem_of_union.
  - apply Hl. rewrite <- Heq. apply list_elem_of_fmap. eauto.
  - by apply (Hnew l'); [right|].
Qed.

Lemma terminate_last_line_cons c s :
  s ≠ "" → terminate_last_line (String c s) = String c (terminate_last_line s).
Proof.
  intros Hs. unfold terminate_last_line.
  destruct s as [|d s]; [done|].
  change (ends_with_newline (String c (String d s)))
    with (ends_with_newline (String d s)).
  change (String.eqb (String c (String d s)) "") with false.
  change (String.eqb (String d s) "") with false. cbn [orb].
  by destruct (ends_with_newline (String d s)).
Qed.

Lemma unlines_lines_of s : unlines (lines_of s) = terminate_last_line s.
Proof.
  induction s as [|c s IH]; [done|]. cbn [lines_of].
  destruct (Ascii.eqb_spec c "010") as [->|Hc].
  - cbn [unlines]. rewrite IH, append_nil_l.
    destruct s as [|d s]; [reflexivity|].
    rewrite (terminate_last_line_cons "010" (String d s)) by discriminate.
    reflexivity.
  - destruct s as [|d s].
    + apply Ascii.eqb_neq in Hc. unfold terminate_last_line.
      cbn [lines_of unlines String.eqb orb ends_with_newline]. rewrite Hc.
      reflexivity.
    + rewrite (terminate_last_line_cons c (String d s)) by discriminate.
      rewrite <- IH.
      destruct (lines_of (String d s)) as [|l ls] eqn:Hl.
      * simpl in Hl. destruct (Ascii.eqb d "010"); [done|].
        by destruct (lines_of s).
      * reflexivity.
Qed.

Lemma merge_lines_single content :
  NoDup (hasher <$> lines_of content) →
  merge_lines hasher [content] = lines_of content.
Proof.
  intros Hnd. unfold merge_lines. cbn [fmap list_fmap].
  rewrite weave_singleton. apply dedup_hash_id; [done | set_solver].
Qed.

(** X16: a file in which no two lines have the same hash is written out
    as it is, with a newline added after its last line when that has
    none. *)
Theorem weaveMergeDedup_single_file fs path content out0 cerr0 :
  fs_open_read fs path = Some content →
  NoDup (hasher <$> lines_of content) →
  ∃ cerr, weaveMergeDedup hasher fs [path] out0 cerr0 =
            Some (out0 ++ terminate_last_line content, cerr).
Proof.
  intros Hopen Hnd.
  destruct (weaveMergeDedup_spec hasher fs [path] out0 cerr0) as [cerr ->].
  exists cerr. unfold opened. cbn [omap list_omap]. rewrite Hopen.
  by rewrite merge_lines_single, unlines_lines_of.
Qed.

(** X17: merging the output of a run again gives that output, whatever
    the hash function. *)
Theorem weaveMergeDedup_idempotent fs filePaths cerr0 out cerr fs' path cerr1 :
  weaveMergeDedup hasher fs filePaths "" cerr0 = Some (out, cerr) →
  fs_open_read fs' path = Some out →
  ∃ cerr', weaveMergeDedup hasher fs' [path] "" cerr1 = Some (out, cerr').
Proof.
  intros Hrun Hopen.
  destruct (weaveMergeDedup_spec hasher fs filePaths "" cerr0) as [cerr2 Hspec].
  rewrite Hspec in Hrun. injection Hrun as <- _. rewrite append_nil_l in Hopen.
  destruct (weaveMergeDedup_spec hasher fs' [path] "" cerr1) as [cerr' ->].
  exists cerr'. unfold opened at 1. cbn [omap list_omap]. rewrite Hopen.
  rewrite merge_lines_single; rewrite (lines_of_unlines hasher);
    try apply merge_lines_no_newline; [done|].
  apply dedup_hash_NoDup.
Qed.

(** ** weaveMergeDedup: the order of the files *)

Lemma concat_Permutation (l1 l2 : list (list string)) :
  l1 ≡ₚ l2 → concat l1 ≡ₚ concat l2.
Proof.
  induction 1 as [|x l1 l2 _ IH|x y l|l1 l2 l3 _ IH1 _ IH2]; simpl.
  - done.
  - by rewrite IH.
  - rewrite !app_assoc. f_equiv. apply Permutation_app_comm.
  - by rewrite IH1.
Qed.

(** X18: the order of the streams that opened decides the order of the
    output and nothing else: started on the same files in another order,
    the loop ends with the same set of hashes and has written the same
    number of lines, and the same lines when no two different lines have
    the same hash. *)
Theorem weave_loop_file_order contents contents' out0 cerr :
  contents ≡ₚ contents' →
  let files := open_stream <$> contents in
  let files' := open_stream <$> contents' in
  let ls := merge_lines hasher contents in
  let ls' := merge_lines hasher contents' in
  ∃ w w',
    weave_loop hasher (weave_fuel files) (WeaveState files ∅ out0 0 cerr) = Some w ∧
    weave_loop hasher (weave_fuel files') (WeaveState files' ∅ out0 0 cerr) = Some w' ∧
    ws_out w = out0 ++ unlines ls ∧
    ws_out w' = out0 ++ unlines ls' ∧
    lines_of (unlines ls) = ls ∧
    lines_of (unlines ls') = ls' ∧
    ws_written w = ws_written w' ∧
    length ls = length ls' ∧
    (collision_free hasher (concat (lines_of <$> contents)) → ls ≡ₚ ls').
Proof.
  intros Hperm files files' ls ls'.
  destruct (weave_loop_returns hasher (weave_fuel files)
              (WeaveState files ∅ out0 0 cerr)) as [w Hw].
  { cbn [ws_files]. unfold weave_fuel. lia. }
  destruct (weave_loop_returns hasher (weave_fuel files')
              (WeaveState files' ∅ out0 0 cerr)) as [w' Hw'].
  { cbn [ws_files]. unfold weave_fuel. lia. }
  exists w, w'. split; [done|]. split; [done|].
  apply weave_loop_sound in Hw as [Hout Hwr], Hw' as [Hout' Hwr'].
  cbn [ws_files ws_out ws_written] in Hout, Hwr, Hout', Hwr'.
  unfold files in Hout, Hwr. unfold files' in Hout', Hwr'.
  rewrite stream_lines_open in Hout, Hwr, Hout', Hwr'.
  split; [done|]. split; [done|].
  split; [apply (lines_of_unlines hasher), merge_lines_no_newline|].
  split; [apply (lines_of_unlines hasher), merge_lines_no_newline|].
  assert (weave (lines_of <$> contents) ≡ₚ weave (lines_of <$> contents')) as Hweave.
  { rewrite !weave_perm. apply concat_Permutation. by apply fmap_Permutation. }
  assert (list_to_set (hasher <$> ls) =@{gset Z} list_to_set (hasher <$> ls')) as Hset.
  { unfold ls, ls'. rewrite !merge_lines_hashes. apply set_eq. intros h.
    by rewrite !elem_of_list_to_set, Hweave. }
  split; [|split].
  - rewrite Hwr, Hwr'. apply set_eq. intros h.
    by rewrite !elem_of_union, !elem_of_list_to_set, Hweave.
  - unfold ls, ls' in *. by rewrite <- !merge_lines_size, Hset.
  - intros Hfree.
    assert (collision_free hasher (weave (lines_of <$> contents))) as Hf1.
    { intros x y Hx Hy. rewrite weave_perm in Hx, Hy. by apply Hfree. }
    assert (collision_free hasher (weave (lines_of <$> contents'))) as Hf2.
    { intros x y Hx Hy. rewrite <- Hweave in Hx, Hy. by apply Hf1. }
    unfold ls, ls', merge_lines. rewrite !dedup_hash_collision_free by done.
    rewrite !filter_all by set_solver.
    apply NoDup_Permutation; try apply (first_occurrences_NoDup hasher).
    intros x. by rewrite !first_occurrences_elem, Hweave.
Qed.

End WeaveMore.

(** ** Examples for the further properties of the merge *)

Lemma weaveMergeDedup_reported_count_witness :
  ∃ ls w pre,
    weaveMergeDedup fnv1a ex_fs ["locked.txt"; "X"; "Y"] "" "" =
      Some ("" ++ unlines ls, pre ++ summary_message w) ∧
    lines_of (unlines ls) = ls ∧
    size w = length ls.
Proof.
  apply weaveMergeDedup_reported_count. discriminate.
Defined.

Lemma weaveMergeDedup_small_inputs_witness :
  let paths := ["locked.txt"; "X"; "Y"; "B"] in
  let started :=
    ("" ++ open_warnings ex_fs paths) ++
    "Weave-merging " ++ show_nat (length (opened ex_fs paths)) ++ " files..." ++ nl in
  (∃ w,
     weave_loop fnv1a (weave_fuel (open_stream <$> opened ex_fs paths))
       (WeaveState (open_stream <$> opened ex_fs paths) ∅ "" 0 started) = Some w ∧
     ws_iterations w = 4%Z ∧ ws_cerr w = started) ∧
  weaveMergeDedup fnv1a ex_fs paths "" "" =
    Some ("" ++ unlines (merge_lines fnv1a (opened ex_fs paths)),
          started ++
          summary_message (list_to_set (fnv1a <$> merge_lines fnv1a (opened ex_fs paths)))).
Proof.
  intros paths started.
  assert (opened ex_fs paths ≠ []) as Hne by discriminate.
  assert (Z.of_nat (max_list (length <$> (lines_of <$> opened ex_fs paths))) < 9999)%Z
    as Hsmall by (vm_compute; reflexivity).
  pose proof (weaveMergeDedup_small_inputs fnv1a ex_fs paths "" "" Hne Hsmall) as H.
  cbv zeta in H. destruct H as (_ & Hloop & Hrun).
  split; [exact Hloop | exact Hrun].
Defined.

Lemma weaveMergeDedup_single_file_witness :
  ∃ cerr, weaveMergeDedup fnv1a ex_fs ["A"] "" "" =
            Some ("" ++ terminate_last_line ex_A, cerr).
Proof.
  apply weaveMergeDedup_single_file.
  - reflexivity.
  - refine (bool_decide_unpack _ _). vm_compute. exact I.
Defined.

Lemma weaveMergeDedup_idempotent_witness :
  ∃ cerr', weaveMergeDedup fnv1a ex_fs_merged ["merged.txt"] "" "" =
             Some ("" ++ unlines (merge_lines fnv1a (opened ex_fs ["X"; "Y"])), cerr').
Proof.
  destruct (weaveMergeDedup_spec fnv1a ex_fs ["X"; "Y"] "" "") as [cerr Hrun].
  apply (weaveMergeDedup_idempotent fnv1a ex_fs ["X"; "Y"] "" _ cerr ex_fs_merged
           "merged.txt" "" Hrun).
  reflexivity.
Defined.

Lemma weave_loop_file_order_witness :
  let files := open_stream <$> [ex_A; ex_X; ex_B] in
  let files' := open_stream <$> [ex_X; ex_B; ex_A] in
  let ls := merge_lines fnv1a [ex_A; ex_X; ex_B] in
  let ls' := merge_lines fnv1a [ex_X; ex_B; ex_A] in
  ∃ w w',
    weave_loop fnv1a (weave_fuel files) (WeaveState files ∅ "" 0 "") = Some w ∧
    weave_loop fnv1a (weave_fuel files') (WeaveState files' ∅ "" 0 "") = Some w' ∧
    ws_out w = "" ++ unlines ls ∧
    ws_out w' = "" ++ unlines ls' ∧
    lines_of (unlines ls) = ls ∧
    lines_of (unlines ls') = ls' ∧
    ws_written w = ws_written w' ∧
    length ls = length ls' ∧
    (collision_free fnv1a (concat (lines_of <$> [ex_A; ex_X; ex_B])) → ls ≡ₚ ls').
Proof.
  apply (weave_loop_file_order fnv1a [ex_A; ex_X; ex_B] [ex_X; ex_B; ex_A] "" "").
  change [ex_A; ex_X; ex_B] with ([ex_A] ++ [ex_X; ex_B])%list.
  change [ex_X; ex_B; ex_A] with ([ex_X; ex_B] ++ [ex_A])%list.
  apply Permutation_app_comm.
Defined.

(** ** The arguments of main, further *)

Lemma parse_args_None n args outputFile filePatterns :
  length args ≤ n →
  parse_args args outputFile filePatterns = None →
  ∃ before flag outputFile1 filePatterns1,
    args = (before ++ [flag])%list ∧ (flag = "-o" ∨ flag = "--output") ∧
    parse_args before outputFile filePatterns = Some (outputFile1, filePatterns1).
Proof.
  revert args outputFile filePatterns.
  induction n as [|n IH]; intros args outputFile filePatterns Hn.
  { destruct args; [done | simpl in Hn; lia]. }
  destruct args as [|arg args]; [done|]. cbn [parse_args].
  destruct (String.eqb arg "-o" || String.eqb arg "--output") eqn:Hflag.
  - assert (arg = "-o" ∨ arg = "--output") as Harg.
    { apply orb_prop in Hflag as [?%String.eqb_eq | ?%String.eqb_eq]; auto. }
    destruct args as [|value args].
    + intros _. exists [], arg, outputFile, filePatterns. done.
    + intros (before & flag & o1 & ps1 & -> & ? & Hb)%IH; [|simpl in Hn; lia].
      exists (arg :: value :: before), flag, o1, ps1.
      split; [done|]. split; [done|]. by rewrite parse_args_flag.
  - intros (before & flag & o1 & ps1 & -> & ? & Hb)%IH; [|simpl in Hn; lia].
    exists (arg :: before), flag, o1, ps1.
    split; [done|]. split; [done|]. cbn [parse_args]. by rewrite Hflag.
Qed.

(** X19: the arguments are refused exactly when they end with a flag
    that is read as a flag: when all that comes before ["-o"] or
    ["--output"] at the end can be read. *)
Theorem parse_args_fails_iff args outputFile filePatterns :
  parse_args args outputFile filePatterns = None ↔
  ∃ before flag outputFile1 filePatterns1,
    args = (before ++ [flag])%list ∧ (flag = "-o" ∨ flag = "--output") ∧
    parse_args before outputFile filePatterns = Some (outputFile1, filePatterns1).
Proof.
  split; [by apply (parse_args_None (length args))|].
  intros (before & flag & o1 & ps1 & -> & Hflag & Hb).
  rewrite (parse_args_app (length before) _ _ _ _ _ _ (le_n _) Hb).
  by destruct Hflag as [-> | ->].
Qed.

Lemma parse_args_patterns_kept n args outputFile filePatterns outputFile' filePatterns' :
  length args ≤ n →
  parse_args args outputFile filePatterns = Some (outputFile', filePatterns') →
  ∃ added,
    filePatterns' = (filePatterns ++ added)%list ∧
    added `sublist_of` args ∧
    ("-o" ∉ added) ∧ ("--output" ∉ added) ∧
    (outputFile' = outputFile ∨ outputFile' ∈ args).
Proof.
  revert args outputFile filePatterns.
  induction n as [|n IH]; intros args outputFile filePatterns Hn.
  { destruct args; [|simpl in Hn; lia]. intros [= <- <-]. exists [].
    rewrite app_nil_r. repeat split; try done; [set_solver..|by left]. }
  destruct args as [|arg args].
  { intros [= <- <-]. exists [].
    rewrite app_nil_r. repeat split; try done; [set_solver..|by left]. }
  cbn [parse_args].
  destruct (String.eqb arg "-o" || String.eqb arg "--output") eqn:Hflag.
  - destruct args as [|value args]; [done|].
    intros (added & -> & Hsub & H1 & H2 & Ho)%IH; [|simpl in Hn; lia].
    exists added. split; [done|]. split; [by do 2 apply sublist_cons|].
    split; [done|]. split; [done|]. right.
    destruct Ho as [->|Ho]; [set_solver|]. by do 2 right.
  - apply orb_false_elim in Hflag as [H1%String.eqb_neq H2%String.eqb_neq].
    intros (added & -> & Hsub & H3 & H4 & Ho)%IH; [|simpl in Hn; lia].
    exists (arg :: added). rewrite <- app_assoc. split; [done|].
    split; [by apply sublist_skip|].
    split; [set_solver|]. split; [set_solver|].
    destruct Ho as [->|Ho]; [by left | right; by right].
Qed.

(** X20: when the arguments are accepted, the patterns are arguments, in
    the order of the arguments; none of them is ["-o"] or ["--output"];
    and the output path is the default or one of the arguments. *)
Theorem parse_args_patterns_in_order args outputFile filePatterns :
  parse_args args "merged.txt" [] = Some (outputFile, filePatterns) →
  filePatterns `sublist_of` args ∧
  ("-o" ∉ filePatterns) ∧ ("--output" ∉ filePatterns) ∧
  (outputFile = "merged.txt" ∨ outputFile ∈ args).
Proof.
  intros (added & -> & H)%(parse_args_patterns_kept (length args)); [|done].
  by rewrite app_nil_l.
Qed.

Lemma parse_args_patterns_in_order_witness :
  ["b"; "--help"; "a"] `sublist_of` ["b"; "-o"; "-o"; "--help"; "--output"; "x"; "a"] ∧
  ("-o" ∉ ["b"; "--help"; "a"]) ∧ ("--output" ∉ ["b"; "--help"; "a"]) ∧
  ("x" = "merged.txt" ∨
   "x" ∈ ["b"; "-o"; "-o"; "--help"; "--output"; "x"; "a"]).
Proof.
  apply (parse_args_patterns_in_order
           ["b"; "-o"; "-o"; "--help"; "--output"; "x"; "a"] "x" ["b"; "--help"; "a"]).
  reflexivity.
Defined.

(** ** main: how a run ends *)

Section MainMore.

Variable hasher : string → Z.

(** X21: a run returns 0 exactly when there are at least two arguments,
    the arguments are accepted, the patterns resolve to at least one file
    without an exception, and the output file can be opened; otherwise it
    returns 1 or is ended by the exception. The output file is created
    exactly in the runs that return 0. *)
Theorem main_exit_code fs argv :
  (run_exit (main hasher fs argv) = Exited 0 ↔
   2 ≤ length argv ∧
   ∃ outputFile filePatterns filePaths cerr,
     parse_args (tl argv) "merged.txt" [] = Some (outputFile, filePatterns) ∧
     expandFilePaths fs filePatterns ("Expanding file patterns..." ++ nl) =
       (Returned filePaths, cerr) ∧
     filePaths ≠ [] ∧
     fs_open_write fs outputFile = true) ∧
  (run_exit (main hasher fs argv) = Exited 0 ↔ is_Some (run_output (main hasher fs argv))) ∧
  (run_exit (main hasher fs argv) = Exited 0 ∨
   run_exit (main hasher fs argv) = Exited 1 ∨
   ∃ what, run_exit (main hasher fs argv) = Terminated what).
Proof.
  unfold main.
  destruct (Nat.ltb_spec (length argv) 2) as [Hlt|Hge].
  { cbn [run_exit run_output]. split; [|split; [|by right; left]].
    - split; [done | intros [? _]; lia].
    - split; [done | by intros [? ?]]. }
  destruct (parse_args (tl argv) "merged.txt" []) as [[outputFile filePatterns]|] eqn:Hparse.
  2:{ cbn [run_exit run_output]. split; [|split; [|by right; left]].
      - split; [done | by intros (_ & ? & ? & ? & ? & ? & _)].
      - split; [done | by intros [? ?]]. }
  destruct filePatterns as [|pattern filePatterns].
  { cbn [run_exit run_output]. split; [|split; [|by right; left]].
    - split; [done|]. intros (_ & o & ps & paths & c & [= <- <-] & Hexp & Hne & _).
      unfold expandFilePaths in Hexp. simpl in Hexp. congruence.
    - split; [done | by intros [? ?]]. }
  destruct (expandFilePaths fs (pattern :: filePatterns) _)
    as [[filePaths|what] cerr] eqn:Hexp.
  2:{ cbn [run_exit run_output]. split; [|split; [|right; right; by eexists]].
      - split; [done|]. intros (_ & o & ps & paths & c & [= <- <-] & Hexp' & _).
        congruence.
      - split; [done | by intros [? ?]]. }
  destruct filePaths as [|path filePaths].
  { cbn [run_exit run_output]. split; [|split; [|by right; left]].
    - split; [done|]. intros (_ & o & ps & paths & c & [= <- <-] & Hexp' & Hne & _).
      congruence.
    - split; [done | by intros [? ?]]. }
  destruct (fs_open_write fs outputFile) eqn:Hout; cbn [negb].
  2:{ cbn [run_exit run_output]. split; [|split; [|by right; left]].
      - split; [done|]. intros (_ & o & ps & paths & c & [= <- <-] & _ & _ & Hw).
        congruence.
      - split; [done | by intros [? ?]]. }
  match goal with
  | |- context [weaveMergeDedup ?h ?f ?p ?o ?c] =>
      destruct (weaveMergeDedup_returns h f p o c) as [[out cerr'] ->]
  end.
  cbn [run_exit run_output]. split; [|split; [|by left]].
  - split; [|done]. intros _. split; [done|]. by eexists _, _, _, _.
  - split; [by eexists | done].
Qed.

(** X22: a run with fewer than two arguments, with arguments that are
    refused, or without a pattern returns 1 without looking at the file
    system: on every file system it ends the same way, and no output file
    is created. *)
Theorem main_usage_errors fs fs' argv :
  length argv < 2 ∨
  parse_args (tl argv) "merged.txt" [] = None ∨
  (∃ outputFile, parse_args (tl argv) "merged.txt" [] = Some (outputFile, [])) →
  main hasher fs argv = main hasher fs' argv ∧
  run_exit (main hasher fs argv) = Exited 1 ∧
  run_output (main hasher fs argv) = None.
Proof.
  unfold main. intros [Hlt|Hparse].
  - assert ((length argv <? 2) = true) as -> by (apply Nat.ltb_lt; lia). done.
  - destruct (length argv <? 2); [done|].
    destruct Hparse as [-> | [outputFile ->]]; done.
Qed.

(** X23: a run whose arguments are accepted, whose patterns resolve to
    files of which at least one opens, and whose output file is a new
    file (no file of that name exists before the run, so that creating it
    changes none of the files that are read) that can be opened returns 0
    and leaves in the output file the merge of the files that opened, in
    the order of the resolved paths. *)
Theorem main_success fs argv outputFile filePatterns filePaths cerr1 :
  2 ≤ length argv →
  parse_args (tl argv) "merged.txt" [] = Some (outputFile, filePatterns) →
  expandFilePaths fs filePatterns ("Expanding file patterns..." ++ nl) =
    (Returned filePaths, cerr1) →
  opened fs filePaths ≠ [] →
  fs_status fs outputFile = FsOk ft_not_found →
  outputFile ∉ filePaths →
  fs_open_write fs outputFile = true →
  run_exit (main hasher fs argv) = Exited 0 ∧
  run_output (main hasher fs argv) =
    Some (outputFile, unlines (merge_lines hasher (opened fs filePaths))).
Proof.
  intros Hargc Hparse Hexpand Hopen _ _ Hout. unfold main.
  destruct (Nat.ltb_spec (length argv) 2) as [?|_]; [lia|].
  rewrite Hparse.
  destruct filePatterns as [|pattern filePatterns].
  { unfold expandFilePaths in Hexpand. simpl in Hexpand.
    injection Hexpand as <- _. done. }
  rewrite Hexpand. destruct filePaths as [|path filePaths]; [done|].
  rewrite Hout. cbn [negb].
  match goal with
  | |- context [weaveMergeDedup ?h ?f ?p ?o ?c] =>
      destruct (weaveMergeDedup_spec h f p o c) as [cerr' ->]
  end.
  cbn [run_exit run_output]. by rewrite append_nil_l.
Qed.

End MainMore.

Lemma main_usage_errors_witness :
  main fnv1a ex_fs ["merge"; "A"; "-o"] = main fnv1a ex_fs_denied ["merge"; "A"; "-o"] ∧
  run_exit (main fnv1a ex_fs ["merge"; "A"; "-o"]) = Exited 1 ∧
  run_output (main fnv1a ex_fs ["merge"; "A"; "-o"]) = None.
Proof.
  apply main_usage_errors. right. left. reflexivity.
Defined.

Lemma main_success_witness :
  run_exit (main fnv1a ex_fs ["merge"; "-o"; "out.txt"; "X"; "locked.txt"; "Y"]) =
    Exited 0 ∧
  run_output (main fnv1a ex_fs ["merge"; "-o"; "out.txt"; "X"; "locked.txt"; "Y"]) =
    Some ("out.txt",
          unlines (merge_lines fnv1a (opened ex_fs ["X"; "locked.txt"; "Y"]))).
Proof.
  assert (2 ≤ length ["merge"; "-o"; "out.txt"; "X"; "locked.txt"; "Y"]) as Hargc
    by (simpl; lia).
  assert (opened ex_fs ["X"; "locked.txt"; "Y"] ≠ []) as Hopen by discriminate.
  assert ("out.txt" ∉ ["X"; "locked.txt"; "Y"]) as Hnew
    by (refine (bool_decide_unpack _ _); vm_compute; exact I).
  apply (main_success fnv1a ex_fs ["merge"; "-o"; "out.txt"; "X"; "locked.txt"; "Y"]
           "out.txt" ["X"; "locked.txt"; "Y"] ["X"; "locked.txt"; "Y"]
           ("Expanding file patterns..." ++ nl) Hargc eq_refl eq_refl Hopen eq_refl
           Hnew eq_refl).
Defined.
